(** * Disaster Response Coordination Platform: enrichment resolution and delivery

    A shallow embedding of the backend's cache helpers, geocoding and
    image-verification routes, relevance scorer, socket handlers and
    authentication middleware, with the properties stated about them.

    Conventions.
    - JavaScript strings are Rocq [string]s, read as sequences of 8-bit
      characters; case mapping and white space are those of the ASCII range.
    - JavaScript numbers are exact: integers are [Z], other numbers [Q].
    - Time is the millisecond count of [Date.now()], a [Z]; the clock stands
      still while one request is handled and moves between requests.
    - The fields of a request body are strings or missing, as the frontend
      sends them.
    - Calls to the logger are left out. *)

From Stdlib Require Import ZArith QArith Qround Lqa Lia List Ascii String Bool.
From stdpp Require Import gmap strings list fin_maps.

Local Open Scope string_scope.

(* ===================================================================== *)
(** ** JavaScript string primitives used by the backend *)
(* ===================================================================== *)

Module JsString.

Definition code (c : ascii) : nat := nat_of_ascii c.

Definition is_upper (c : ascii) : bool := (65 <=? code c)%nat && (code c <=? 90)%nat.
Definition is_lower (c : ascii) : bool := (97 <=? code c)%nat && (code c <=? 122)%nat.

(** [\s] of a regular expression and the characters removed by [trim]. *)
Definition is_space (c : ascii) : bool :=
  ((9 <=? code c)%nat && (code c <=? 13)%nat) || (code c =? 32)%nat.

Definition lower_char (c : ascii) : ascii :=
  if is_upper c then ascii_of_nat (code c + 32) else c.
Definition upper_char (c : ascii) : ascii :=
  if is_lower c then ascii_of_nat (code c - 32) else c.

(** [s.toLowerCase()] *)
Fixpoint toLowerCase (s : string) : string :=
  match s with
  | EmptyString => EmptyString
  | String c s' => String (lower_char c) (toLowerCase s')
  end.

(** [s.includes(p)]: [p] occurs in [s] at some offset. *)
Fixpoint includes (s p : string) : bool :=
  String.prefix p s ||
  match s with
  | EmptyString => false
  | String _ s' => includes s' p
  end.

Fixpoint skip (n : nat) (s : string) : string :=
  match n, s with
  | O, _ => s
  | S _, EmptyString => EmptyString
  | S n', String _ s' => skip n' s'
  end.

(** [s.replace(pat, rep)] with a string pattern: only the first occurrence
    is replaced.  The replacement is inserted literally (the backend only
    ever passes the empty string). *)
Fixpoint replace (pat rep s : string) : string :=
  if String.prefix pat s then rep ++ skip (String.length pat) s
  else match s with
       | EmptyString => EmptyString
       | String c s' => String c (replace pat rep s')
       end.

Fixpoint trim_start (l : list ascii) : list ascii :=
  match l with
  | c :: l' => if is_space c then trim_start l' else l
  | [] => []
  end.

(** [s.trim()] *)
Definition trim (s : string) : string :=
  string_of_list_ascii
    (rev (trim_start (rev (trim_start (list_ascii_of_string s))))).

(** [s.split(/[,\s]+/)]: the pieces between maximal runs of separators;
    a separator at either end yields an empty first or last piece. *)
Definition is_separator (c : ascii) : bool := (code c =? 44)%nat || is_space c.

Fixpoint split_aux (cs cur : list ascii) (in_run : bool) : list string :=
  match cs with
  | [] => [string_of_list_ascii (rev cur)]
  | c :: cs' =>
      if is_separator c then
        if in_run then split_aux cs' cur true
        else string_of_list_ascii (rev cur) :: split_aux cs' [] true
      else split_aux cs' (c :: cur) false
  end.

Definition split_separators (s : string) : list string :=
  split_aux (list_ascii_of_string s) [] false.

(** JavaScript truthiness of a possibly missing string. *)
Definition truthy (o : option string) : bool :=
  match o with
  | Some s => negb (String.eqb s EmptyString)
  | None => false
  end.

(** [Buffer.from(s).toString('base64')] *)
Definition b64_alphabet : string :=
  "ABCDEFGHIJKLMNOPQRSTUVWXYZabcdefghijklmnopqrstuvwxyz0123456789+/".

Definition b64_digit (n : N) : ascii :=
  match String.get (N.to_nat n) b64_alphabet with
  | Some c => c
  | None => "="%char
  end.

Fixpoint base64_bytes (l : list N) : list ascii :=
  match l with
  | [] => []
  | [a] =>
      [b64_digit (N.shiftr a 2); b64_digit (N.shiftl (N.land a 3) 4);
       "="%char; "="%char]
  | [a; b] =>
      [b64_digit (N.shiftr a 2);
       b64_digit (N.lor (N.shiftl (N.land a 3) 4) (N.shiftr b 4));
       b64_digit (N.shiftl (N.land b 15) 2); "="%char]
  | a :: b :: c :: rest =>
      b64_digit (N.shiftr a 2)
      :: b64_digit (N.lor (N.shiftl (N.land a 3) 4) (N.shiftr b 4))
      :: b64_digit (N.lor (N.shiftl (N.land b 15) 2) (N.shiftr c 6))
      :: b64_digit (N.land c 63)
      :: base64_bytes rest
  end.

Definition base64 (s : string) : string :=
  string_of_list_ascii (base64_bytes (map N_of_ascii (list_ascii_of_string s))).

End JsString.

(* ===================================================================== *)
(** ** Property lookup on an object literal *)
(* ===================================================================== *)

Module JsObject.

(** The names every object literal inherits from [Object.prototype].  All
    of them are bound to functions or objects, hence truthy. *)
Definition prototype_keys : list string :=
  [ "constructor"; "__proto__"; "hasOwnProperty"; "isPrototypeOf";
    "propertyIsEnumerable"; "toLocaleString"; "toString"; "valueOf";
    "__defineGetter__"; "__defineSetter__"; "__lookupGetter__";
    "__lookupSetter__" ].

Inductive property (A : Type) : Type :=
| Own (a : A)             (* a property written in the literal *)
| Inherited (k : string)  (* a member of Object.prototype *)
| Undefined.
Arguments Own {A} a.
Arguments Inherited {A} k.
Arguments Undefined {A}.

Fixpoint own_property {A} (fields : list (string * A)) (k : string) : option A :=
  match fields with
  | [] => None
  | (k', a) :: rest => if String.eqb k' k then Some a else own_property rest k
  end.

(** [obj[k]] for an object literal with the given own fields. *)
Definition get {A} (fields : list (string * A)) (k : string) : property A :=
  match own_property fields k with
  | Some a => Own a
  | None =>
      if existsb (String.eqb k) prototype_keys then Inherited k else Undefined
  end.

End JsObject.

(* ===================================================================== *)
(** ** Results of calls that may throw *)
(* ===================================================================== *)

Inductive outcome (A : Type) : Type :=
| Ret (a : A)
| Throw (message : string).
Arguments Ret {A} a.
Arguments Throw {A} message.

(* ===================================================================== *)
(** ** The regular expressions of the location fallback *)
(* ===================================================================== *)

Module Regex.
Import JsString.

Inductive item : Type :=
| Range (lo hi : ascii)   (* a-z *)
| Space                   (* \s *)
| Single (c : ascii).

Inductive regex : Type :=
| Lit (s : string)                   (* literal characters *)
| Chars (cs : list item)             (* [..] *)
| Repeat (min : nat) (cs : list item) (* [..]{min,}, greedy: + is {1,}, * is {0,} *)
| Optional (cs : list item)          (* [..]?, greedy *)
| Seq (r1 r2 : regex)
| Group (r : regex).                 (* capturing parentheses *)

Record pattern : Type := { body : regex; ignore_case : bool }.

Definition item_has (it : item) (c : ascii) : bool :=
  match it with
  | Range lo hi => (code lo <=? code c)%nat && (code c <=? code hi)%nat
  | Space => is_space c
  | Single d => Ascii.eqb d c
  end.

(** With the [i] flag a character matches when either of its two cases does. *)
Definition class_has (ci : bool) (cs : list item) (c : ascii) : bool :=
  if ci then
    existsb (fun it => item_has it (lower_char c) || item_has it (upper_char c)) cs
  else existsb (fun it => item_has it c) cs.

Definition char_eq (ci : bool) (a b : ascii) : bool :=
  if ci then Ascii.eqb (upper_char a) (upper_char b) else Ascii.eqb a b.

Fixpoint strip_literal (ci : bool) (lit s : list ascii) : option (list ascii) :=
  match lit, s with
  | [], _ => Some s
  | a :: lit', b :: s' => if char_eq ci a b then strip_literal ci lit' s' else None
  | _ :: _, [] => None
  end.

(** The state of a match in progress: the input still to read and the
    text captured by the group, if it has been closed. *)
Definition state : Type := list ascii * option (list ascii).

(** Greedy repetition with backtracking: consume as long as possible, and
    give characters back one at a time while the continuation fails. *)
Fixpoint repeat_greedy (ok : ascii -> bool) (min : nat) (s : list ascii)
    (k : list ascii -> option state) : option state :=
  match s with
  | c :: s' =>
      if ok c then
        match repeat_greedy ok (Nat.pred min) s' k with
        | Some r => Some r
        | None => if (min =? 0)%nat then k s else None
        end
      else if (min =? 0)%nat then k s else None
  | [] => if (min =? 0)%nat then k [] else None
  end.

(** A matcher in continuation-passing style, as in the ECMAScript
    definition of pattern semantics. *)
Fixpoint run (ci : bool) (r : regex) (x : state) (k : state -> option state)
    : option state :=
  match r with
  | Lit s =>
      match strip_literal ci (list_ascii_of_string s) (fst x) with
      | Some rest => k (rest, snd x)
      | None => None
      end
  | Chars cs =>
      match fst x with
      | c :: rest => if class_has ci cs c then k (rest, snd x) else None
      | [] => None
      end
  | Repeat min cs =>
      repeat_greedy (class_has ci cs) min (fst x) (fun rest => k (rest, snd x))
  | Optional cs =>
      match fst x with
      | c :: rest =>
          if class_has ci cs c then
            match k (rest, snd x) with
            | Some r => Some r
            | None => k x
            end
          else k x
      | [] => k x
      end
  | Seq r1 r2 => run ci r1 x (fun y => run ci r2 y k)
  | Group r' =>
      run ci r' x
        (fun y => k (fst y, Some (firstn (length (fst x) - length (fst y)) (fst x))))
  end.

(** Try every start offset from the left. *)
Fixpoint search (p : pattern) (s : list ascii) : option state :=
  match run (ignore_case p) (body p) (s, None) Some with
  | Some y => Some y
  | None =>
      match s with
      | [] => None
      | _ :: s' => search p s'
      end
  end.

(** [text.match(p)] for a pattern without the [g] flag: [None] is [null];
    otherwise the inner option is element 1 of the match array. *)
Definition match_group1 (p : pattern) (text : string) : option (option string) :=
  match search p (list_ascii_of_string text) with
  | Some y => Some (option_map string_of_list_ascii (snd y))
  | None => None
  end.

(** Whether the group is closed on every path through the expression. *)
Fixpoint captures (r : regex) : bool :=
  match r with
  | Group _ => true
  | Seq r1 r2 => captures r1 || captures r2
  | _ => false
  end.

End Regex.

(* ===================================================================== *)
(** ** middleware/index.js: mock authentication *)
(* ===================================================================== *)

Module Auth.
Import JsObject.

Record user : Type := { id : string; role : string; name : string }.

Definition mockUsers : list (string * user) :=
  [ ("netrunnerX", {| id := "netrunnerX"; role := "admin"; name := "NetRunner X" |});
    ("reliefAdmin", {| id := "reliefAdmin"; role := "admin"; name := "Relief Admin" |});
    ("citizen1", {| id := "citizen1"; role := "contributor"; name := "Citizen Reporter" |}) ].

Definition citizen1 : user :=
  {| id := "citizen1"; role := "contributor"; name := "Citizen Reporter" |}.

(** [req.headers.authorization] *)
Record request : Type := { authorization : option string }.

(** What a middleware does with a request: hand it on with [req.user]
    set, or answer it itself. *)
Inductive middleware_result : Type :=
| Next (req_user : property user)
| Respond (status : Z).

(** [a || b] on property values: objects and functions are truthy. *)
Definition or_else {A} (a b : property A) : property A :=
  match a with
  | Undefined => b
  | _ => a
  end.

Definition authenticate (req : request) : middleware_result :=
  let authHeader := authorization req in
  let userId :=
    if JsString.truthy authHeader then
      JsString.replace "Bearer " EmptyString
        (match authHeader with Some h => h | None => EmptyString end)
    else "citizen1" in
  Next (or_else (get mockUsers userId) (get mockUsers "citizen1")).

End Auth.

(* ===================================================================== *)
(** ** Records exchanged by the routes *)
(* ===================================================================== *)

(** A row of the [disasters] table, as far as the routes read it. *)
Record disaster : Type := {
  disaster_id : string;
  tags : list string;
  location_name : option string
}.

(** [lat] and [lng] are absent when the object spread into the result has
    no such fields. *)
Record coordinates : Type := {
  lat : option Q;
  lng : option Q;
  formatted_address : string;
  service : string
}.

(** The body answered by the geocoding route; [mock] is [false] where the
    field is not set. *)
Record geocode_result : Type := {
  original_text : string;
  extracted_location : string;
  coords : coordinates;
  success : bool;
  mock : bool
}.

(** The body answered by the image-verification route.  The score is [None]
    when the provider's field is not a number. *)
Record verification : Type := {
  status : string;
  authenticity_score : option Q;
  manipulation_detected : bool;
  context_match : bool;
  analysis_summary : string;
  confidence_level : string;
  verification_method : string;
  timestamp : Z
}.

(** What the two routes store in the cache and answer with: always an
    object, hence truthy in [if (cachedResult)]. *)
Inductive payload : Type :=
| GeoValue (g : geocode_result)
| VerValue (v : verification).

Inductive body : Type :=
| Json (p : payload)
| ErrorBody (error : string).

Record response : Type := { http_status : Z; http_body : body }.

(* ===================================================================== *)
(** ** The world the handlers run in *)
(* ===================================================================== *)

(** A row of the [cache] table. *)
Record cache_row : Type := { value : payload; expires_at : Z }.

(** How one call to the cache table ends: normally, with an [error] in the
    returned object, or with an exception. *)
Inductive fault : Type :=
| Healthy
| ErrorResult (message : string)
| Exception (message : string).

Inductive event : Type :=
| CacheSelect (key : string)
| CacheDelete (key : string)
| CacheUpsert (key : string)
| DisasterSelect (id : string)
| ReportUpdate (id : string)
| Invoke (fn arg : string)   (* a provider function is entered *)
| Http (service : string).   (* a request leaves for an external service *)

Definition is_provider_event (e : event) : bool :=
  match e with
  | Invoke _ _ | Http _ => true
  | _ => false
  end.

Record world : Type := {
  clock : Z;                         (* Date.now() *)
  cache_table : gmap string cache_row;
  store_fault : nat -> fault;        (* how the n-th call to the cache table ends *)
  store_calls : nat;
  random_source : nat -> Q;          (* the n-th value of Math.random() *)
  random_calls : nat;
  trace : list event                 (* what has been called, latest first *)
}.

Definition provider_events (w : world) : list event :=
  List.filter is_provider_event (trace w).

(** The clock moves between two requests. *)
Definition at_time (t : Z) (w : world) : world :=
  {| clock := t; cache_table := cache_table w; store_fault := store_fault w;
     store_calls := store_calls w; random_source := random_source w;
     random_calls := random_calls w; trace := trace w |}.

(** Computations over the world that may throw. *)
Definition M (A : Type) : Type := world -> outcome A * world.

Definition ret {A} (a : A) : M A := fun w => (Ret a, w).
Definition throw {A} (message : string) : M A := fun w => (Throw message, w).

Definition bind {A B} (c : M A) (k : A -> M B) : M B :=
  fun w =>
    match c w with
    | (Ret a, w') => k a w'
    | (Throw m, w') => (Throw m, w')
    end.

(** [try { c } catch (error) { h error.message }] *)
Definition try_catch {A} (c : M A) (h : string -> M A) : M A :=
  fun w =>
    match c w with
    | (Ret a, w') => (Ret a, w')
    | (Throw m, w') => h m w'
    end.

Definition lift {A} (o : outcome A) : M A := fun w => (o, w).

Declare Scope js_scope.
Delimit Scope js_scope with js.
Notation "'let*' x := c 'in' k" := (bind c (fun x => k))
  (at level 10, x name, c at level 100, k at level 200) : js_scope.
Notation "'await' c 'in' k" := (bind c (fun _ => k))
  (at level 10, c at level 100, k at level 200) : js_scope.
Local Open Scope js_scope.

Definition now : M Z := fun w => (Ret (clock w), w).

Definition emit (e : event) : M unit :=
  fun w =>
    (Ret tt,
     {| clock := clock w; cache_table := cache_table w; store_fault := store_fault w;
        store_calls := store_calls w; random_source := random_source w;
        random_calls := random_calls w; trace := e :: trace w |}).

(** [Math.random()] *)
Definition random : M Q :=
  fun w =>
    (Ret (random_source w (random_calls w)),
     {| clock := clock w; cache_table := cache_table w; store_fault := store_fault w;
        store_calls := store_calls w; random_source := random_source w;
        random_calls := S (random_calls w); trace := trace w |}).

(** One call to the cache table begins: it is recorded and its fate drawn. *)
Definition store_call (e : event) : M fault :=
  fun w =>
    (Ret (store_fault w (store_calls w)),
     {| clock := clock w; cache_table := cache_table w; store_fault := store_fault w;
        store_calls := S (store_calls w); random_source := random_source w;
        random_calls := random_calls w; trace := e :: trace w |}).

Definition read_table : M (gmap string cache_row) :=
  fun w => (Ret (cache_table w), w).

Definition write_table (t : gmap string cache_row) : M unit :=
  fun w =>
    (Ret tt,
     {| clock := clock w; cache_table := t; store_fault := store_fault w;
        store_calls := store_calls w; random_source := random_source w;
        random_calls := random_calls w; trace := trace w |}).

(* ===================================================================== *)
(** ** utils/cache.js *)
(* ===================================================================== *)

Module Cache.

(** [supabase.from('cache').select('value, expires_at').eq('key', key).single()]:
    the pair is [{ data, error }]; no row is an error of [single()]. *)
Definition select_single (key : string) : M (option cache_row * option string) :=
  let* f := store_call (CacheSelect key) in
  match f with
  | Healthy =>
      let* t := read_table in
      match t !! key with
      | Some row => ret (Some row, None)
      | None => ret (None, Some "PGRST116")
      end
  | ErrorResult m => ret (None, Some m)
  | Exception m => throw m
  end.

(** [supabase.from('cache').delete().eq('key', key)] *)
Definition delete_eq (key : string) : M (option string) :=
  let* f := store_call (CacheDelete key) in
  match f with
  | Healthy => let* t := read_table in await write_table (delete key t) in ret None
  | ErrorResult m => ret (Some m)
  | Exception m => throw m
  end.

(** [supabase.from('cache').upsert({ key, value, expires_at })] *)
Definition upsert (key : string) (row : cache_row) : M (option string) :=
  let* f := store_call (CacheUpsert key) in
  match f with
  | Healthy => let* t := read_table in await write_table (<[key := row]> t) in ret None
  | ErrorResult m => ret (Some m)
  | Exception m => throw m
  end.

(** [null] is [None]. *)
Definition getFromCache (key : string) : M (option payload) :=
  try_catch
    (let* r := select_single key in
     match r with
     | (_, Some _) | (None, _) => ret None
     | (Some data, None) =>
         let* t := now in
         if (expires_at data <? t)%Z then
           await delete_eq key in ret None
         else ret (Some (value data))
     end)
    (fun _ => ret None).

Definition setCache (key : string) (v : payload) (ttlSeconds : Z) : M unit :=
  try_catch
    (let* t := now in
     let expiresAt := (t + ttlSeconds * 1000)%Z in
     await upsert key {| value := v; expires_at := expiresAt |} in ret tt)
    (fun _ => ret tt).

End Cache.

(* ===================================================================== *)
(** ** Configuration and external services *)
(* ===================================================================== *)

(** One hit of a geocoding service. *)
Record place : Type := {
  place_lat : option Q;
  place_lng : option Q;
  place_name : string
}.

(** The fields the verification provider is asked for. *)
Record analysis : Type := {
  a_authenticity_score : option Q;
  a_manipulation_detected : bool;
  a_context_match : bool;
  a_analysis_summary : string;
  a_confidence_level : string
}.

(** [process.env] and the answers of the services behind the network.  A
    service either answers or the request throws (time-out, status outside
    2xx, malformed payload). *)
Record env : Type := {
  GEMINI_API_KEY : option string;
  GOOGLE_MAPS_API_KEY : option string;
  MAPBOX_API_KEY : option string;
  (* text generated for the location prompt built around the input text *)
  gemini_location : string -> outcome (option string);
  (* text generated for the verification prompt built around URL and disaster *)
  gemini_image : string -> disaster -> outcome (option string);
  (* JSON.parse of the braces-delimited part of a generated text, when
     there is one and it parses *)
  json_analysis : string -> option analysis;
  (* status and results of the Google Maps geocoder *)
  google_maps_get : string -> outcome (string * list place);
  (* features of the Mapbox geocoder *)
  mapbox_get : string -> outcome (list place);
  (* rows answered by Nominatim *)
  nominatim_get : string -> outcome (list place);
  (* supabase.from('disasters').select('*').eq('id', id).single(): { data, error } *)
  disasters_single : string -> outcome (option disaster * option string);
  (* supabase.from('reports').update(..).eq('id', id): the returned error *)
  reports_update : string -> verification -> outcome (option string)
}.

(* ===================================================================== *)
(** ** routes/geocoding.js *)
(* ===================================================================== *)

Module Geocoding.
Import JsString JsObject Regex Cache.

Record request : Type := { text : option string; description : option string }.

(** [s.replace(re, empty)] where the global [re] matches either kind of
    quotation mark. *)
Fixpoint remove_quotes (s : string) : string :=
  match s with
  | EmptyString => EmptyString
  | String c s' =>
      if (code c =? 39)%nat || (code c =? 34)%nat then remove_quotes s'
      else String c (remove_quotes s')
  end.

(** The function logs and rethrows whatever it catches, so its [try] is
    transparent. *)
Definition extractLocationWithGemini (e : env) (txt : string) : M string :=
  await emit (Invoke "extractLocationWithGemini" txt) in
  if negb (truthy (GEMINI_API_KEY e)) then throw "Gemini API key not configured"
  else
    await emit (Http "gemini") in
    let* generatedText := lift (gemini_location e txt) in
    if negb (truthy generatedText) then throw "No response from Gemini API"
    else
      let locationName :=
        remove_quotes (trim (match generatedText with Some g => g | None => EmptyString end)) in
      if includes (toLowerCase locationName) "not specified"
      then throw "No location found in text"
      else ret locationName.

Definition geocodeWithGoogleMaps (e : env) (locationName : string) : M coordinates :=
  await emit (Http "google_maps") in
  let* data := lift (google_maps_get e locationName) in
  match data with
  | (st, results) =>
      match results with
      | first :: _ =>
          if String.eqb st "OK" then
            ret {| lat := place_lat first; lng := place_lng first;
                   formatted_address := place_name first; service := "google_maps" |}
          else throw ("Google Maps geocoding failed: " ++ st)
      | [] => throw ("Google Maps geocoding failed: " ++ st)
      end
  end.

Definition geocodeWithMapbox (e : env) (locationName : string) : M coordinates :=
  await emit (Http "mapbox") in
  let* features := lift (mapbox_get e locationName) in
  match features with
  | first :: _ =>
      ret {| lat := place_lat first; lng := place_lng first;
             formatted_address := place_name first; service := "mapbox" |}
  | [] => throw "Mapbox geocoding found no results"
  end.

Definition geocodeWithNominatim (e : env) (locationName : string) : M coordinates :=
  await emit (Http "nominatim") in
  let* data := lift (nominatim_get e locationName) in
  match data with
  | first :: _ =>
      ret {| lat := place_lat first; lng := place_lng first;
             formatted_address := place_name first; service := "nominatim" |}
  | [] => throw "Nominatim geocoding found no results"
  end.

(** The first configured service is the only one tried. *)
Definition geocodeLocation (e : env) (locationName : string) : M coordinates :=
  await emit (Invoke "geocodeLocation" locationName) in
  if truthy (GOOGLE_MAPS_API_KEY e) then geocodeWithGoogleMaps e locationName
  else if truthy (MAPBOX_API_KEY e) then geocodeWithMapbox e locationName
  else geocodeWithNominatim e locationName.

Definition upper : list item := [Range "A" "Z"].
Definition place_chars : list item := [Range "a" "z"; Range "A" "Z"; Space; Single ","].

Definition after_word (w : string) : pattern :=
  {| body := Seq (Lit w) (Seq (Repeat 1 [Space])
               (Group (Seq (Chars upper) (Repeat 1 place_chars))));
     ignore_case := true |}.

Definition locationPatterns : list pattern :=
  [ after_word "in";      (* /in\s+([A-Z][a-zA-Z\s,]+)/i *)
    after_word "at";      (* /at\s+([A-Z][a-zA-Z\s,]+)/i *)
    after_word "near";    (* /near\s+([A-Z][a-zA-Z\s,]+)/i *)
    (* /([A-Z][a-zA-Z]+,?\s*[A-Z]{2,})/ *)
    {| body := Group (Seq (Chars upper)
                 (Seq (Repeat 1 [Range "a" "z"; Range "A" "Z"])
                 (Seq (Optional [Single ","])
                 (Seq (Repeat 0 [Space]) (Repeat 2 upper)))));
       ignore_case := false |} ].

(** The [for] loop over the patterns; [match[1].trim()] throws when the
    group is undefined. *)
Fixpoint first_location (ps : list pattern) (txt default : string) : outcome string :=
  match ps with
  | [] => Ret default
  | p :: ps' =>
      match match_group1 p txt with
      | Some (Some g) => Ret (trim g)
      | Some None => Throw "Cannot read properties of undefined (reading 'trim')"
      | None => first_location ps' txt default
      end
  end.

Definition mockCoordinates : list (string * (Q * Q)) :=
  [ ("Manhattan, NYC", (407831 # 10000, - (739712 # 10000)));
    ("Brooklyn, NY", (406782 # 10000, - (739442 # 10000)));
    ("Queens, NY", (407282 # 10000, - (737949 # 10000)));
    ("Bronx, NY", (408448 # 10000, - (738648 # 10000)));
    ("New York, NY", (407128 # 10000, - (740060 # 10000)));
    ("Los Angeles, CA", (340522 # 10000, - (1182437 # 10000)));
    ("Chicago, IL", (418781 # 10000, - (876298 # 10000))) ]%Q.

(** [{ ...c, formatted_address, service: 'mock' }]: a member of
    [Object.prototype] has no enumerable fields of its own to spread. *)
Definition spread_mock (c : property (Q * Q)) (address : string) : coordinates :=
  match c with
  | Own (la, ln) =>
      {| lat := Some la; lng := Some ln; formatted_address := address; service := "mock" |}
  | _ =>
      {| lat := None; lng := None; formatted_address := address; service := "mock" |}
  end.

Definition mockLocationExtraction (txt : string) : outcome geocode_result :=
  match first_location locationPatterns txt "New York, NY" with
  | Throw m => Throw m
  | Ret extractedLocation =>
      let coordinates :=
        Auth.or_else (get mockCoordinates extractedLocation)
                     (get mockCoordinates "New York, NY") in
      Ret {| original_text := txt;
             extracted_location := extractedLocation;
             coords := spread_mock coordinates extractedLocation;
             success := true;
             mock := true |}
  end.

Definition cacheKey (inputText : string) : string :=
  "geocoding_" ++ base64 inputText.

(** The inner [try] of the route: the provider chain, and the fallback
    when any step of it throws. *)
Definition resolve_location (e : env) (inputText : string) : M geocode_result :=
  try_catch
    (let* locationName := extractLocationWithGemini e inputText in
     let* coordinates := geocodeLocation e locationName in
     ret {| original_text := inputText;
            extracted_location := locationName;
            coords := coordinates;
            success := true;
            mock := false |})
    (fun _ => lift (mockLocationExtraction inputText)).

(** The route after a cache miss. *)
Definition on_miss (e : env) (inputText : string) : M response :=
  let* result := resolve_location e inputText in
  await setCache (cacheKey inputText) (GeoValue result) 7200 in
  ret {| http_status := 200; http_body := Json (GeoValue result) |}.

(** [router.post('/')] *)
Definition route (e : env) (req : request) : M response :=
  try_catch
    (if negb (truthy (text req)) && negb (truthy (description req)) then
       ret {| http_status := 400; http_body := ErrorBody "Text or description is required" |}
     else
       let inputText :=
         match (if truthy (text req) then text req else description req) with
         | Some s => s
         | None => EmptyString
         end in
       let* cachedResult := getFromCache (cacheKey inputText) in
       match cachedResult with
       | Some cached => ret {| http_status := 200; http_body := Json cached |}
       | None => on_miss e inputText
       end)
    (fun message => ret {| http_status := 500; http_body := ErrorBody message |}).

End Geocoding.

(* ===================================================================== *)
(** ** routes/verification.js *)
(* ===================================================================== *)

Module Verification.
Import JsString Cache.

Record request : Type := {
  id : string;                 (* req.params.id *)
  image_url : option string;
  report_id : option string
}.

(** [score > n]; a score that is not a number compares false. *)
Definition exceeds (score : option Q) (n : Q) : bool :=
  match score with
  | Some q => negb (Qle_bool q n)
  | None => false
  end.

(** The status expression of the provider path. *)
Definition provider_status (score : option Q) : string :=
  if exceeds score 70 then "verified"
  else if exceeds score 40 then "suspicious"
  else "fake".

(** The structured answer derived from free text when no JSON parses. *)
Definition text_analysis (generatedText : string) : analysis :=
  let lowered := toLowerCase generatedText in
  {| a_authenticity_score := if includes lowered "fake" then Some 30%Q else Some 80%Q;
     a_manipulation_detected := includes lowered "manipulated" || includes lowered "edited";
     a_context_match := negb (includes lowered "unrelated");
     a_analysis_summary := substring 0 200 generatedText;
     a_confidence_level := "medium" |}.

Definition gemini_result (a : analysis) (t : Z) : verification :=
  {| status := provider_status (a_authenticity_score a);
     authenticity_score := a_authenticity_score a;
     manipulation_detected := a_manipulation_detected a;
     context_match := a_context_match a;
     analysis_summary := a_analysis_summary a;
     confidence_level := a_confidence_level a;
     verification_method := "gemini_api";
     timestamp := t |}.

(** The function logs and rethrows whatever it catches, so its outer
    [try] is transparent. *)
Definition verifyImageWithGemini (e : env) (imageUrl : string) (d : disaster)
    : M verification :=
  await emit (Invoke "verifyImageWithGemini" imageUrl) in
  if negb (truthy (GEMINI_API_KEY e)) then throw "Gemini API key not configured"
  else
    await emit (Http "gemini") in
    let* generatedText := lift (gemini_image e imageUrl d) in
    match generatedText with
    | None => throw "No response from Gemini API"
    | Some g =>
        if String.eqb g EmptyString then throw "No response from Gemini API"
        else
          let a :=
            match json_analysis e g with
            | Some parsed => parsed
            | None => text_analysis g
            end in
          let* t := now in
          ret (gemini_result a t)
    end.

Definition suspiciousPatterns : list string := ["fake"; "staged"; "stock"; "shutterstock"].

(** [mockImageVerification] given the value [u] of [Math.random()] and the
    time [t] of [new Date()]. *)
Definition mock_result (u : Q) (t : Z) (imageUrl : string) (d : disaster) : verification :=
  let score := (Qfloor (u * 40) + 60)%Z in
  let isSuspicious :=
    existsb (fun pattern => includes (toLowerCase imageUrl) pattern) suspiciousPatterns in
  {| status := if isSuspicious then "suspicious"
               else if (80 <? score)%Z then "verified" else "pending";
     authenticity_score := if isSuspicious then Some 25%Q else Some (inject_Z score);
     manipulation_detected := isSuspicious;
     context_match := true;
     analysis_summary :=
       if isSuspicious then "Image shows signs of being staged or stock photography"
       else "Image appears authentic with no obvious signs of manipulation";
     confidence_level := "medium";
     verification_method := "mock_analysis";
     timestamp := t |}.

Definition mockImageVerification (imageUrl : string) (d : disaster) : M verification :=
  let* u := random in
  let* t := now in
  ret (mock_result u t imageUrl d).

Definition cacheKey (imageUrl : string) : string :=
  "image_verification_" ++ base64 imageUrl.

(** The inner [try] of the route: the provider, and the fallback when it
    throws. *)
Definition verify_or_mock (e : env) (imageUrl : string) (d : disaster) : M verification :=
  try_catch (verifyImageWithGemini e imageUrl d)
            (fun _ => mockImageVerification imageUrl d).

(** The route after a cache miss. *)
Definition on_miss (e : env) (req : request) (imageUrl : string) : M response :=
  await emit (DisasterSelect (id req)) in
  let* found := lift (disasters_single e (id req)) in
  match found with
  | (_, Some disasterError) => throw disasterError
  | (None, None) =>
      ret {| http_status := 404; http_body := ErrorBody "Disaster not found" |}
  | (Some d, None) =>
      let* verificationResult := verify_or_mock e imageUrl d in
      await (if truthy (report_id req) then
               let rid := match report_id req with Some r => r | None => EmptyString end in
               await emit (ReportUpdate rid) in
               await lift (reports_update e rid verificationResult) in
               ret tt
             else ret tt) in
      await setCache (cacheKey imageUrl) (VerValue verificationResult) 3600 in
      ret {| http_status := 200; http_body := Json (VerValue verificationResult) |}
  end.

(** [router.post('/:id/verify-image', authenticate, ..)]; the middleware
    always passes the request on and the handler does not read [req.user]. *)
Definition route (e : env) (req : request) : M response :=
  try_catch
    (if negb (truthy (image_url req)) then
       ret {| http_status := 400; http_body := ErrorBody "Image URL is required" |}
     else
       let imageUrl := match image_url req with Some s => s | None => EmptyString end in
       let* cachedResult := getFromCache (cacheKey imageUrl) in
       match cachedResult with
       | Some cached => ret {| http_status := 200; http_body := Json cached |}
       | None => on_miss e req imageUrl
       end)
    (fun message => ret {| http_status := 500; http_body := ErrorBody message |}).

End Verification.

(* ===================================================================== *)
(** ** Resolution requests of either kind *)
(* ===================================================================== *)

Inductive resolution_request : Type :=
| GeocodeRequest (r : Geocoding.request)
| VerifyImageRequest (r : Verification.request).

(** The opaque input of a request: [text || description], or [image_url]. *)
Definition request_input (r : resolution_request) : option string :=
  match r with
  | GeocodeRequest g =>
      if JsString.truthy (Geocoding.text g) then Geocoding.text g
      else if JsString.truthy (Geocoding.description g) then Geocoding.description g
      else None
  | VerifyImageRequest v =>
      if JsString.truthy (Verification.image_url v) then Verification.image_url v else None
  end.

(** The cache key a request with the given input is looked up under. *)
Definition derived_key (r : resolution_request) (input : string) : string :=
  match r with
  | GeocodeRequest _ => Geocoding.cacheKey input
  | VerifyImageRequest _ => Verification.cacheKey input
  end.

(** The time to live the route stores its result with, in seconds. *)
Definition ttl_seconds (r : resolution_request) : Z :=
  match r with
  | GeocodeRequest _ => 7200
  | VerifyImageRequest _ => 3600
  end.

(** What the route does after a cache miss. *)
Definition miss_branch (e : env) (r : resolution_request) (input : string) : M response :=
  match r with
  | GeocodeRequest _ => Geocoding.on_miss e input
  | VerifyImageRequest v => Verification.on_miss e v input
  end.

(** The reason given when the payload is missing or empty. *)
Definition rejection_reason (r : resolution_request) : string :=
  match r with
  | GeocodeRequest _ => "Text or description is required"
  | VerifyImageRequest _ => "Image URL is required"
  end.

Definition resolve (e : env) (r : resolution_request) : M response :=
  match r with
  | GeocodeRequest g => Geocoding.route e g
  | VerifyImageRequest v => Verification.route e v
  end.

(* ===================================================================== *)
(** ** routes/socialMedia.js: relevance score *)
(* ===================================================================== *)

Module SocialMedia.
Import JsString.

(** The priorities the posts of the module carry; each has an entry in
    [priorityScores], so the [|| 0] default never applies to them. *)
Inductive priority : Type := urgent | high | medium | low.

Record post : Type := {
  post_text : string;          (* post.post *)
  post_priority : priority;
  keywords : list string;
  post_timestamp : Z           (* new Date(post.timestamp).getTime() *)
}.

Definition priorityScores (p : priority) : Z :=
  match p with
  | urgent => 10
  | high => 7
  | medium => 5
  | low => 2
  end.

(** [Math.max(0, x)] *)
Definition max0 (x : Q) : Q := if Qle_bool 0 x then x else 0%Q.

(** [timeNow] is the value of [Date.now()] inside the function. *)
Definition calculateRelevanceScore (timeNow : Z) (p : post) (d : disaster) : Q :=
  let score := 0%Z in
  let score := (score + priorityScores (post_priority p))%Z in
  let score :=
    fold_left
      (fun score tag =>
         if includes (toLowerCase (post_text p)) (toLowerCase tag)
         then (score + 5)%Z else score)
      (tags d) score in
  let score :=
    if truthy (location_name d) then
      let locationKeywords :=
        split_separators
          (toLowerCase (match location_name d with Some l => l | None => EmptyString end)) in
      fold_left
        (fun score keyword =>
           if includes (toLowerCase (post_text p)) keyword
           then (score + 3)%Z else score)
        locationKeywords score
    else score in
  let hoursOld := (inject_Z (timeNow - post_timestamp p) / inject_Z (1000 * 60 * 60))%Q in
  (inject_Z score + max0 (5 - hoursOld))%Q.

(** The tokens of the disaster's location name that the scorer looks for. *)
Definition location_tokens (d : disaster) : list string :=
  if truthy (location_name d) then
    split_separators
      (toLowerCase (match location_name d with Some l => l | None => EmptyString end))
  else [].

(** The body contains the tag, as the scorer tests it. *)
Definition mentions_tag (p : post) (tag : string) : bool :=
  includes (toLowerCase (post_text p)) (toLowerCase tag).

Definition mentions_token (p : post) (token : string) : bool :=
  includes (toLowerCase (post_text p)) token.

End SocialMedia.

(* ===================================================================== *)
(** ** socket/handlers.js: rooms and broadcasts *)
(* ===================================================================== *)

Module Socket.

Record message : Type := { event_name : string; event_data : string }.

(** The Socket.IO server: the rooms of every connected socket (a socket
    starts in the room named by its own id) and the messages delivered so
    far, each with the id of the socket it went to. *)
Record hub : Type := {
  rooms_of : gmap string (gset string);
  delivered : list (string * message)
}.

Definition room_name (disasterId : string) : string := "disaster_" ++ disasterId.

(** [io.on('connection')]: the socket exists and is told so. *)
Definition on_connection (sid : string) (timeNow : string) (h : hub) : hub :=
  {| rooms_of := <[sid := {[sid]}]> (rooms_of h);
     delivered := delivered h ++
       [(sid, {| event_name := "connection_status"; event_data := timeNow |})] |}.

(** [socket.join(room)] *)
Definition socket_join (sid room : string) (h : hub) : hub :=
  {| rooms_of := alter (fun rs => rs ∪ {[room]}) sid (rooms_of h);
     delivered := delivered h |}.

(** [socket.leave(room)] *)
Definition socket_leave (sid room : string) (h : hub) : hub :=
  {| rooms_of := alter (fun rs => rs ∖ {[room]}) sid (rooms_of h);
     delivered := delivered h |}.

Definition join_disaster (sid disasterId : string) (h : hub) : hub :=
  socket_join sid (room_name disasterId) h.

Definition leave_disaster (sid disasterId : string) (h : hub) : hub :=
  socket_leave sid (room_name disasterId) h.

(** On disconnect the server drops the socket from all its rooms; the
    handler itself only logs. *)
Definition on_disconnect (sid : string) (h : hub) : hub :=
  {| rooms_of := delete sid (rooms_of h); delivered := delivered h |}.

(** The sockets currently in a room. *)
Definition members (room : string) (h : hub) : gset string :=
  dom (filter (fun kv => room ∈ snd kv) (rooms_of h)).

Definition send_all (to : list string) (m : message) (h : hub) : hub :=
  {| rooms_of := rooms_of h;
     delivered := delivered h ++ map (fun sid => (sid, m)) to |}.

(** [io.to(room).emit(event, data)] *)
Definition io_to_emit (room : string) (m : message) (h : hub) : hub :=
  send_all (elements (members room h)) m h.

(** [io.emit(event, data)]: every connected socket. *)
Definition io_emit (m : message) (h : hub) : hub :=
  send_all (elements (dom (rooms_of h))) m h.

Definition emitToDisasterRoom (h : hub) (disasterId ev data : string) : hub :=
  io_to_emit (room_name disasterId) {| event_name := ev; event_data := data |} h.

(** The messages a socket has received, oldest first. *)
Definition received (sid : string) (h : hub) : list message :=
  map snd (List.filter (fun d => String.eqb (fst d) sid) (delivered h)).

Definition connected (sid : string) (h : hub) : bool :=
  match rooms_of h !! sid with
  | Some _ => true
  | None => false
  end.

(** The socket is connected and currently in the room. *)
Definition joined (sid room : string) (h : hub) : bool :=
  match rooms_of h !! sid with
  | Some rs => bool_decide (room ∈ rs)
  | None => false
  end.

End Socket.

(* ===================================================================== *)
(** ** utils/cache.js: the hourly sweep *)
(* ===================================================================== *)

Module CacheSweep.

(** The range delete is one more call to the cache table; the trace only
    records calls that name a key, so it is not entered there. *)
Definition range_call : M fault :=
  fun w =>
    (Ret (store_fault w (store_calls w)),
     {| clock := clock w; cache_table := cache_table w; store_fault := store_fault w;
        store_calls := S (store_calls w); random_source := random_source w;
        random_calls := random_calls w; trace := trace w |}).

(** [supabase.from('cache').delete().lt('expires_at', now)] *)
Definition delete_lt_expires_at (t : Z) : M (option string) :=
  let* f := range_call in
  match f with
  | Healthy =>
      let* tb := read_table in
      await write_table (filter (fun kv => ¬ (expires_at (snd kv) < t)%Z) tb) in
      ret None
  | ErrorResult m => ret (Some m)
  | Exception m => throw m
  end.

Definition clearExpiredCache : M unit :=
  try_catch
    (let* t := now in
     await delete_lt_expires_at t in
     ret tt)
    (fun _ => ret tt).

End CacheSweep.

(* ===================================================================== *)
(** ** routes/disasters.js: create, update, delete *)
(* ===================================================================== *)

Module Disasters.
Import JsString JsObject.

(** [req.body]; [tags] is an array when present. *)
Record body : Type := {
  title : option string;
  location_name : option string;
  description : option string;
  tags : option (list string)
}.

(** An element of [audit_trail]; [changes] is set by updates only. *)
Record audit_entry : Type := {
  action : string;
  user_id : option string;
  timestamp : Z;
  changes : option body
}.

(** A row of the [disasters] table, as far as the routes write it.  The
    owner is [None] only in a candidate row built for a user without an id. *)
Record row : Type := {
  d_id : string;
  d_title : string;
  d_location_name : option string;
  d_description : string;
  d_tags : list string;
  owner_id : option string;
  created_at : Z;
  audit_trail : list audit_entry
}.

(** The object handed to [update]: only the listed columns are set. *)
Record updates : Type := {
  u_title : option string;
  u_location_name : option string;
  u_description : option string;
  u_tags : option (list string);
  u_audit_trail : list audit_entry
}.

(** One call of [req.io.emit('disaster_updated', { action, disaster })]. *)
Record broadcast : Type := {
  b_event : string;
  b_action : string;
  b_disaster : option row
}.

Inductive reply : Type :=
| Data (r : option row)
| Message (message : string)
| Error (error : string).

Record response : Type := { status : Z; json : reply }.

Record state : Type := {
  time : Z;                            (* Date.now() *)
  disasters : gmap string row;         (* the table *)
  db_fault : nat -> fault;             (* how the n-th call to the table ends *)
  db_calls : nat;
  uuids : nat -> string;               (* the n-th value of uuidv4() *)
  uuid_calls : nat;
  emitted : list broadcast             (* latest first *)
}.

Definition D (A : Type) : Type := state -> outcome A * state.

Definition dret {A} (a : A) : D A := fun s => (Ret a, s).
Definition dthrow {A} (message : string) : D A := fun s => (Throw message, s).

Definition dbind {A B} (c : D A) (k : A -> D B) : D B :=
  fun s =>
    match c s with
    | (Ret a, s') => k a s'
    | (Throw m, s') => (Throw m, s')
    end.

Definition dtry {A} (c : D A) (h : string -> D A) : D A :=
  fun s =>
    match c s with
    | (Ret a, s') => (Ret a, s')
    | (Throw m, s') => h m s'
    end.

Declare Scope db_scope.
Delimit Scope db_scope with db.
Notation "'let*' x := c 'in' k" := (dbind c (fun x => k))
  (at level 10, x name, c at level 100, k at level 200) : db_scope.
Notation "'await' c 'in' k" := (dbind c (fun _ => k))
  (at level 10, c at level 100, k at level 200) : db_scope.
Local Open Scope db_scope.

Definition date_now : D Z := fun s => (Ret (time s), s).

Definition uuidv4 : D string :=
  fun s =>
    (Ret (uuids s (uuid_calls s)),
     {| time := time s; disasters := disasters s; db_fault := db_fault s;
        db_calls := db_calls s; uuids := uuids s; uuid_calls := S (uuid_calls s);
        emitted := emitted s |}).

Definition db_call : D fault :=
  fun s =>
    (Ret (db_fault s (db_calls s)),
     {| time := time s; disasters := disasters s; db_fault := db_fault s;
        db_calls := S (db_calls s); uuids := uuids s; uuid_calls := uuid_calls s;
        emitted := emitted s |}).

Definition read_disasters : D (gmap string row) := fun s => (Ret (disasters s), s).

Definition write_disasters (t : gmap string row) : D unit :=
  fun s =>
    (Ret tt,
     {| time := time s; disasters := t; db_fault := db_fault s;
        db_calls := db_calls s; uuids := uuids s; uuid_calls := uuid_calls s;
        emitted := emitted s |}).

(** [req.io.emit('disaster_updated', { action, disaster })] *)
Definition io_emit (act : string) (r : option row) : D unit :=
  fun s =>
    (Ret tt,
     {| time := time s; disasters := disasters s; db_fault := db_fault s;
        db_calls := db_calls s; uuids := uuids s; uuid_calls := uuid_calls s;
        emitted := {| b_event := "disaster_updated"; b_action := act; b_disaster := r |}
                   :: emitted s |}).

(** [.select('*').eq('id', id).single()]: [{ data, error }]. *)
Definition select_single (id : string) : D (option row * option string) :=
  let* f := db_call in
  match f with
  | Healthy =>
      let* t := read_disasters in
      match t !! id with
      | Some r => dret (Some r, None)
      | None => dret (None, Some "PGRST116")
      end
  | ErrorResult m => dret (None, Some m)
  | Exception m => dthrow m
  end.

(** [.insert(disaster).select().single()]; the table refuses a row without
    owner (NOT NULL) and a second row with the same id (primary key). *)
Definition insert_single (r : row) : D (option row * option string) :=
  let* f := db_call in
  match f with
  | Healthy =>
      let* t := read_disasters in
      match owner_id r, t !! d_id r with
      | None, _ => dret (None, Some "23502")
      | Some _, Some _ => dret (None, Some "23505")
      | Some _, None => await write_disasters (<[d_id r := r]> t) in dret (Some r, None)
      end
  | ErrorResult m => dret (None, Some m)
  | Exception m => dthrow m
  end.

(** The row after an update: the columns that are set replace the old ones. *)
Definition apply_updates (u : updates) (r : row) : row :=
  {| d_id := d_id r;
     d_title := match u_title u with Some t => t | None => d_title r end;
     d_location_name :=
       match u_location_name u with Some l => Some l | None => d_location_name r end;
     d_description := match u_description u with Some t => t | None => d_description r end;
     d_tags := match u_tags u with Some l => l | None => d_tags r end;
     owner_id := owner_id r;
     created_at := created_at r;
     audit_trail := u_audit_trail u |}.

(** [.update(updates).eq('id', id).select().single()] *)
Definition update_single (id : string) (u : updates) : D (option row * option string) :=
  let* f := db_call in
  match f with
  | Healthy =>
      let* t := read_disasters in
      match t !! id with
      | Some r =>
          await write_disasters (<[id := apply_updates u r]> t) in
          dret (Some (apply_updates u r), None)
      | None => dret (None, Some "PGRST116")
      end
  | ErrorResult m => dret (None, Some m)
  | Exception m => dthrow m
  end.

(** [.delete().eq('id', id)]: the returned error. *)
Definition delete_eq (id : string) : D (option string) :=
  let* f := db_call in
  match f with
  | Healthy => let* t := read_disasters in await write_disasters (delete id t) in dret None
  | ErrorResult m => dret (Some m)
  | Exception m => dthrow m
  end.

(** [req.user.id] and [req.user.role]: undefined on a member of
    [Object.prototype]. *)
Definition user_id_of (u : property Auth.user) : option string :=
  match u with
  | Own usr => Some (Auth.id usr)
  | _ => None
  end.

Definition role_of (u : property Auth.user) : option string :=
  match u with
  | Own usr => Some (Auth.role usr)
  | _ => None
  end.

(** [a !== b] for a column that is a string or null and a property that is
    a string or undefined. *)
Definition differs (a b : option string) : bool :=
  match a, b with
  | Some x, Some y => negb (String.eqb x y)
  | _, _ => true
  end.

Definition is_not_admin (u : property Auth.user) : bool :=
  match role_of u with
  | Some r => negb (String.eqb r "admin")
  | None => true
  end.

(** [...(x && { x })]: the field is set when the value is truthy. *)
Definition when_truthy (o : option string) : option string :=
  if truthy o then o else None.

Definition fail (code : Z) (message : string) : response :=
  {| status := code; json := Error message |}.

(** [router.post('/', authenticate, ..)] after the middleware. *)
Definition create (user : property Auth.user) (b : body) : D response :=
  dtry
    (if negb (truthy (title b)) || negb (truthy (description b)) then
       dret (fail 400 "Title and description are required")
     else
       let* newId := uuidv4 in
       let* t := date_now in
       let disaster :=
         {| d_id := newId;
            d_title := match title b with Some s => s | None => EmptyString end;
            d_location_name := location_name b;
            d_description := match description b with Some s => s | None => EmptyString end;
            d_tags := match tags b with Some l => l | None => [] end;
            owner_id := user_id_of user;
            created_at := t;
            audit_trail := [{| action := "create"; user_id := user_id_of user;
                               timestamp := t; changes := None |}] |} in
       let* inserted := insert_single disaster in
       match inserted with
       | (_, Some error) => dthrow error
       | (data, None) =>
           await io_emit "create" data in
           dret {| status := 201; json := Data data |}
       end)
    (fun message => dret (fail 500 message)).

(** [router.put('/:id', authenticate, ..)] after the middleware. *)
Definition update (user : property Auth.user) (id : string) (b : body) : D response :=
  dtry
    (let* fetched := select_single id in
     match fetched with
     | (_, Some fetchError) => dthrow fetchError
     | (None, None) => dret (fail 404 "Disaster not found")
     | (Some existing, None) =>
         if differs (owner_id existing) (user_id_of user) && is_not_admin user then
           dret (fail 403 "Not authorized to update this disaster")
         else
           let* t := date_now in
           let changed :=
             {| u_title := when_truthy (title b);
                u_location_name := when_truthy (location_name b);
                u_description := when_truthy (description b);
                u_tags := tags b;
                u_audit_trail :=
                  audit_trail existing
                  ++ [{| action := "update"; user_id := user_id_of user;
                         timestamp := t; changes := Some b |}] |} in
           let* updated := update_single id changed in
           match updated with
           | (_, Some error) => dthrow error
           | (data, None) =>
               await io_emit "update" data in
               dret {| status := 200; json := Data data |}
           end
     end)
    (fun message => dret (fail 500 message)).

(** [router.delete('/:id', authenticate, ..)] after the middleware. *)
Definition remove (user : property Auth.user) (id : string) : D response :=
  dtry
    (let* fetched := select_single id in
     match fetched with
     | (_, Some fetchError) => dthrow fetchError
     | (None, None) => dret (fail 404 "Disaster not found")
     | (Some existing, None) =>
         if differs (owner_id existing) (user_id_of user) && is_not_admin user then
           dret (fail 403 "Not authorized to delete this disaster")
         else
           let* error := delete_eq id in
           match error with
           | Some e => dthrow e
           | None =>
               await io_emit "delete" (Some existing) in
               dret {| status := 200; json := Message "Disaster deleted successfully" |}
           end
     end)
    (fun message => dret (fail 500 message)).

(** A request to one of the three endpoints, with its Authorization header. *)
Inductive request : Type :=
| Post (authorization : option string) (b : body)
| Put (authorization : option string) (id : string) (b : body)
| Delete (authorization : option string) (id : string).

(** [authenticate] in front of a handler.  The middleware always calls
    [next()]; a middleware that answered itself would end the request with
    its own status. *)
Definition behind_authenticate (authorization : option string)
    (handler : property Auth.user -> D response) : D response :=
  match Auth.authenticate {| Auth.authorization := authorization |} with
  | Auth.Next user => handler user
  | Auth.Respond code => dret {| status := code; json := Data None |}
  end.

Definition handle (r : request) : D response :=
  match r with
  | Post h b => behind_authenticate h (fun user => create user b)
  | Put h id b => behind_authenticate h (fun user => update user id b)
  | Delete h id => behind_authenticate h (fun user => remove user id)
  end.

End Disasters.

(* ===================================================================== *)
(** ** Vocabulary of the properties *)
(* ===================================================================== *)

(** The thresholds of the specification, read on a finished result: above
    70 verified, above 40 and up to 70 suspicious, up to 40 fake. *)
Definition follows_thresholds (r : verification) : Prop :=
  ∀ q : Q, authenticity_score r = Some q →
    ((70 < q)%Q → status r = "verified") ∧
    ((40 < q)%Q ∧ (q <= 70)%Q → status r = "suspicious") ∧
    ((q <= 40)%Q → status r = "fake").

(** The URL contains one of the low-trust markers, whatever its case. *)
Definition contains_marker (imageUrl : string) : Prop :=
  ∃ marker, In marker Verification.suspiciousPatterns ∧
            JsString.includes (JsString.toLowerCase imageUrl) marker = true.

(** Entries of a provider chain: the route called its resolving function. *)
Definition is_resolution (e : event) : bool :=
  match e with
  | Invoke fn _ =>
      String.eqb fn "extractLocationWithGemini" || String.eqb fn "verifyImageWithGemini"
  | _ => false
  end.

Definition resolutions (w : world) : nat :=
  length (List.filter is_resolution (trace w)).

(** The cache table answers every call normally. *)
Definition store_up (w : world) : Prop := ∀ n, store_fault w n = Healthy.

(** The cache table fails every call, one way or the other. *)
Definition store_down (w : world) : Prop := ∀ n, store_fault w n ≠ Healthy.

(** The same world with a reachable and empty cache table. *)
Definition with_empty_cache (w : world) : world :=
  {| clock := clock w; cache_table := ∅; store_fault := fun _ => Healthy;
     store_calls := store_calls w; random_source := random_source w;
     random_calls := random_calls w; trace := trace w |}.

(** No row of the table is a hit for the key at the current time. *)
Definition no_fresh_entry (key : string) (w : world) : Prop :=
  ∀ row, cache_table w !! key = Some row → (expires_at row < clock w)%Z.

(** Two worlds that agree on everything a handler reads besides the cache
    table: the clock and the random source. *)
Definition same_inputs (w1 w2 : world) : Prop :=
  clock w1 = clock w2
  ∧ random_source w1 = random_source w2
  ∧ random_calls w1 = random_calls w2.

(** A computation whose result does not depend on the cache table or on
    the state of the store. *)
Definition store_blind {A} (c : M A) : Prop :=
  ∀ w1 w2, same_inputs w1 w2 →
    fst (c w1) = fst (c w2) ∧ same_inputs (snd (c w1)) (snd (c w2)).

(** A step that neither moves the clock nor touches the cache table. *)
Definition off_store (w w' : world) : Prop :=
  clock w' = clock w
  ∧ cache_table w' = cache_table w
  ∧ store_fault w' = store_fault w
  ∧ store_calls w' = store_calls w.

(** A step that leaves clock, randomness and the record of provider calls
    as they were. *)
Definition quiet (w w' : world) : Prop :=
  clock w' = clock w
  ∧ store_fault w' = store_fault w
  ∧ random_source w' = random_source w
  ∧ random_calls w' = random_calls w
  ∧ provider_events w' = provider_events w.

(** The database calls of the verification route that can end a request
    with an error: the lookup of the disaster does not yield a row, or the
    update of the report throws. *)
Definition database_trouble (e : env) (v : Verification.request) : Prop :=
  (∀ d, disasters_single e (Verification.id v) ≠ Ret (Some d, None))
  ∨ (JsString.truthy (Verification.report_id v) = true
     ∧ ∃ rid result message, reports_update e rid result = Throw message).


(* ===================================================================== *)
(** ** Sample inputs *)
(* ===================================================================== *)

Definition sample_disaster : disaster :=
  {| disaster_id := "d1"; tags := ["flood"; "urgent"];
     location_name := Some "Manhattan, NYC" |}.

(** No key is configured and every service is out of reach. *)
Definition offline_env : env :=
  {| GEMINI_API_KEY := None; GOOGLE_MAPS_API_KEY := None; MAPBOX_API_KEY := None;
     gemini_location := fun _ => Throw "timeout";
     gemini_image := fun _ _ => Throw "timeout";
     json_analysis := fun _ => None;
     google_maps_get := fun _ => Throw "timeout";
     mapbox_get := fun _ => Throw "timeout";
     nominatim_get := fun _ => Throw "timeout";
     disasters_single := fun _ => Ret (Some sample_disaster, None);
     reports_update := fun _ _ => Ret None |}.

(** The text provider is configured and answers in free text. *)
Definition online_env : env :=
  {| GEMINI_API_KEY := Some "key"; GOOGLE_MAPS_API_KEY := None; MAPBOX_API_KEY := None;
     gemini_location := fun _ => Ret (Some "Manhattan, NYC");
     gemini_image := fun _ _ => Ret (Some "The picture looks edited and fake.");
     json_analysis := fun _ => None;
     google_maps_get := fun _ => Throw "timeout";
     mapbox_get := fun _ => Throw "timeout";
     nominatim_get := fun _ =>
       Ret [{| place_lat := Some (407831 # 10000)%Q; place_lng := Some (- (739712 # 10000))%Q;
               place_name := "Manhattan, New York" |}];
     disasters_single := fun _ => Ret (Some sample_disaster, None);
     reports_update := fun _ _ => Ret None |}.

(** The disaster of the request is unknown to the database. *)
Definition unknown_disaster_env : env :=
  {| GEMINI_API_KEY := GEMINI_API_KEY offline_env;
     GOOGLE_MAPS_API_KEY := None; MAPBOX_API_KEY := None;
     gemini_location := gemini_location offline_env;
     gemini_image := gemini_image offline_env;
     json_analysis := json_analysis offline_env;
     google_maps_get := google_maps_get offline_env;
     mapbox_get := mapbox_get offline_env;
     nominatim_get := nominatim_get offline_env;
     disasters_single := fun _ =>
       Ret (None, Some "JSON object requested, multiple (or no) rows returned");
     reports_update := reports_update offline_env |}.

(** A fresh process: empty cache, working store, clock at [t]. *)
Definition fresh_world (t : Z) : world :=
  {| clock := t; cache_table := ∅; store_fault := fun _ => Healthy; store_calls := 0;
     random_source := fun _ => (1 # 2)%Q; random_calls := 0; trace := [] |}.

(** The same with a cache table that is out of reach. *)
Definition unreachable_world (t : Z) : world :=
  {| clock := t; cache_table := ∅; store_fault := fun _ => Exception "fetch failed";
     store_calls := 0; random_source := fun _ => (1 # 2)%Q; random_calls := 0;
     trace := [] |}.

Definition manhattan_text : string := "Flooding near Manhattan, NYC, need food".

Definition manhattan_request : resolution_request :=
  GeocodeRequest {| Geocoding.text := Some manhattan_text; Geocoding.description := None |}.

(** What the fallback makes of [manhattan_text]. *)
Definition manhattan_result : geocode_result :=
  {| original_text := manhattan_text;
     extracted_location := "Manhattan, NYC, need food";
     coords := {| lat := Some (407128 # 10000)%Q;
                  lng := Some (- (740060 # 10000))%Q;
                  formatted_address := "Manhattan, NYC, need food";
                  service := "mock" |};
     success := true;
     mock := true |}.

(** The world after one resolution of [manhattan_request] at time 0. *)
Definition warm_world : world :=
  snd (resolve offline_env manhattan_request (fresh_world 0)).

(** A request to verify an image for a disaster. *)
Definition image_request : resolution_request :=
  VerifyImageRequest
    {| Verification.id := "d1";
       Verification.image_url := Some "https://example.org/flood.jpg";
       Verification.report_id := None |}.

(** A cache whose only entry expired at time 10, seen at time 20. *)
Definition stale_row : cache_row :=
  {| value := GeoValue manhattan_result; expires_at := 10 |}.

Definition stale_world : world :=
  {| clock := 20; cache_table := {[ "k" := stale_row ]};
     store_fault := fun _ => Healthy; store_calls := 0;
     random_source := fun _ => (1 # 2)%Q; random_calls := 0; trace := [] |}.

(** One socket, connected and joined to the room of disaster 42. *)
Definition sample_hub : Socket.hub :=
  Socket.join_disaster "s1" "42"
    (Socket.on_connection "s1" "2025-06-22T19:15:01.000Z"
       {| Socket.rooms_of := ∅; Socket.delivered := [] |}).

(** Parts of the base64 encoding, named for the proofs about cache keys. *)
Module Base64Parts.






End Base64Parts.

(** Vocabulary of the further properties of the routes. *)
Module RouteTerms.

(** The text has no letter of the alphabet in it. *)
Definition no_letters (txt : string) : bool :=
  forallb (fun c => negb (JsString.is_upper c || JsString.is_lower c))
          (list_ascii_of_string txt).

(** A character that is not a letter of the alphabet. *)
Definition letterless (c : ascii) : Prop :=
  JsString.is_upper c = false ∧ JsString.is_lower c = false.

(** The geocoding service the configuration selects. *)
Definition selected_service (e : env) : string :=
  if JsString.truthy (GOOGLE_MAPS_API_KEY e) then "google_maps"
  else if JsString.truthy (MAPBOX_API_KEY e) then "mapbox"
  else "nominatim".

Definition is_http (ev : event) : bool :=
  match ev with
  | Http _ => true
  | _ => false
  end.

(** The requests that have left for external services, latest first. *)
Definition http_requests (w : world) : list event :=
  List.filter is_http (trace w).

(** [part] occurs in [whole] as a contiguous piece. *)
Definition piece_of (part whole : list ascii) : Prop :=
  ∃ before after, whole = (before ++ part ++ after)%list.

(** What a match has captured, if anything, is a piece of the text. *)
Definition captured_in (whole : list ascii) (c : option (list ascii)) : Prop :=
  ∀ cap, c = Some cap → piece_of cap whole.

(** The answer of the fallback when no pattern matches. *)
Definition default_location : geocode_result :=
  {| original_text := EmptyString;
     extracted_location := "New York, NY";
     coords := {| lat := Some (407128 # 10000)%Q;
                  lng := Some (- (740060 # 10000))%Q;
                  formatted_address := "New York, NY";
                  service := "mock" |};
     success := true;
     mock := true |}.

(** The statuses the [reports] table accepts (its CHECK constraint). *)
Definition report_statuses : list string := ["pending"; "verified"; "suspicious"; "fake"].

End RouteTerms.

(** Terms for the disaster routes. *)
Module DisasterTerms.
Import JsObject Disasters.

Definition credentials (r : request) : option string :=
  match r with
  | Post h _ => h
  | Put h _ _ => h
  | Delete h _ => h
  end.



Definition status_of (o : outcome response) : option Z :=
  match o with
  | Ret r => Some (status r)
  | Throw _ => None
  end.

(** The requester owns the row, or is an administrator. *)
Definition may_change (user : property Auth.user) (existing : row) : Prop :=
  (∃ uid, owner_id existing = Some uid ∧ user_id_of user = Some uid)
  ∨ role_of user = Some "admin".



Definition flood : row :=
  {| d_id := "d1"; d_title := "Flood"; d_location_name := Some "Manhattan";
     d_description := "Water rising"; d_tags := ["flood"];
     owner_id := Some "citizen1"; created_at := 1000;
     audit_trail := [{| action := "create"; user_id := Some "citizen1";
                        timestamp := 1000; changes := None |}] |}.

Definition calm_state : state :=
  {| time := 5000; disasters := {[ "d1" := flood ]}; db_fault := fun _ => Healthy;
     db_calls := 0; uuids := fun _ => "d2"; uuid_calls := 0; emitted := [] |}.

Definition retitle : body :=
  {| title := Some "Flash flood"; location_name := None;
     description := Some EmptyString; tags := None |}.

(** A contributor who owns nothing. *)
Definition bystander : Auth.user :=
  {| Auth.id := "citizen2"; Auth.role := "contributor"; Auth.name := "Passer-by" |}.


End DisasterTerms.

(* ===================================================================== *)
(** ** Authentication middleware *)
(* ===================================================================== *)

Module AuthProps.
Import JsObject Auth.

(** The middleware hands every request on, with [req.user] set to
    something truthy. *)
Lemma authenticate_passes_on (req : request) :
  ∃ u, authenticate req = Next u ∧ u ≠ Undefined.
Proof.
  unfold authenticate.
  eexists; split; [reflexivity|].
  destruct (get mockUsers _) eqn:E; simpl; try discriminate.
Qed.

(** A token that names neither a mock user nor a member of
    [Object.prototype] is given the default user. *)
Lemma authenticate_default (token : string) :
  get mockUsers token = Undefined →
  or_else (get mockUsers token) (get mockUsers "citizen1") = Own citizen1.
Proof. intros ->. reflexivity. Qed.

Lemma authenticate_missing_header :
  authenticate {| authorization := None |} = Next (Own citizen1).
Proof. reflexivity. Qed.

(** C9, at the bearer token [constructor]: the request is handed on, but
    [req.user] is the inherited member [Object.prototype.constructor], not
    the default user [citizen1]. *)
Theorem authenticate_inherited_member :
  authenticate {| authorization := Some "Bearer constructor" |}
    = Next (Inherited "constructor")
  ∧ Inherited "constructor" ≠ Own citizen1.
Proof. split; [reflexivity | discriminate]. Qed.

End AuthProps.

(* ===================================================================== *)
(** ** Status of a verification result *)
(* ===================================================================== *)

Module VerificationProps.
Import JsString Verification.

Lemma exceeds_iff (q n : Q) : exceeds (Some q) n = true ↔ (n < q)%Q.
Proof.
  unfold exceeds. rewrite negb_true_iff.
  destruct (Qle_bool q n) eqn:E.
  - apply Qle_bool_iff in E. split; [discriminate | intros H; exfalso; lra].
  - split; [intros _ | reflexivity].
    apply Qnot_le_lt. intros H. apply Qle_bool_iff in H. congruence.
Qed.

Lemma exceeds_false_iff (q n : Q) : exceeds (Some q) n = false ↔ (q <= n)%Q.
Proof.
  unfold exceeds. rewrite negb_false_iff. apply Qle_bool_iff.
Qed.

Lemma provider_status_thresholds (q : Q) :
  ((70 < q)%Q → provider_status (Some q) = "verified") ∧
  ((40 < q)%Q ∧ (q <= 70)%Q → provider_status (Some q) = "suspicious") ∧
  ((q <= 40)%Q → provider_status (Some q) = "fake").
Proof.
  unfold provider_status. repeat split.
  - intros H. apply exceeds_iff in H. now rewrite H.
  - intros [H1 H2]. apply exceeds_iff in H1. apply exceeds_false_iff in H2.
    now rewrite H2, H1.
  - intros H.
    assert (H70 : (q <= 70)%Q) by lra.
    apply exceeds_false_iff in H. apply exceeds_false_iff in H70.
    now rewrite H70, H.
Qed.

Lemma gemini_result_thresholds (a : analysis) (t : Z) :
  follows_thresholds (gemini_result a t).
Proof.
  intros q Hq. simpl in Hq. simpl status. rewrite Hq.
  apply provider_status_thresholds.
Qed.

(** Whatever the provider function returns was built by [gemini_result]. *)
Lemma verifyImageWithGemini_result (e : env) (url : string) (d : disaster)
    (w w' : world) (r : verification) :
  verifyImageWithGemini e url d w = (Ret r, w') →
  ∃ a t, r = gemini_result a t.
Proof.
  unfold verifyImageWithGemini, bind, emit, lift, throw, now, ret.
  destruct (negb (truthy (GEMINI_API_KEY e))); [discriminate|].
  destruct (gemini_image e url d) as [[g|]|]; try discriminate.
  destruct (String.eqb g EmptyString); [discriminate|].
  intros H. injection H as <- _. eauto.
Qed.

Lemma marker_reflect (url : string) :
  existsb (fun pattern => includes (toLowerCase url) pattern) suspiciousPatterns = true
  ↔ contains_marker url.
Proof.
  unfold contains_marker. rewrite existsb_exists. reflexivity.
Qed.

Lemma random_score_range (u : Q) :
  (0 <= u)%Q → (u < 1)%Q → (60 <= Qfloor (u * 40) + 60 <= 99)%Z.
Proof.
  intros H0 H1.
  assert (Hlo : (0 <= Qfloor (u * 40))%Z).
  { rewrite <- (Qfloor_Z 0). apply Qfloor_resp_le.
    change (inject_Z 0) with 0%Q. lra. }
  assert (Hhi : (Qfloor (u * 40) < 40)%Z).
  { rewrite Zlt_Qlt. eapply Qle_lt_trans; [apply Qfloor_le|].
    change (inject_Z 40) with 40%Q. lra. }
  lia.
Qed.


Lemma mockImageVerification_draws (url : string) (d : disaster) (w : world) :
  fst (mockImageVerification url d w)
    = Ret (mock_result (random_source w (random_calls w)) (clock w) url d).
Proof. reflexivity. Qed.

(** C3 as stated fails on the fallback path: for a URL with a marker the
    fallback reports status suspicious with score 25, where the thresholds
    ask for fake. *)
Lemma fallback_breaks_thresholds :
  ¬ follows_thresholds
      (mock_result 0 0 "https://example.org/fake.jpg" sample_disaster).
Proof.
  intros H.
  destruct (H 25%Q eq_refl) as (_ & _ & Hfake).
  assert (Hle : (25 <= 40)%Q) by lra.
  specialize (Hfake Hle). vm_compute in Hfake. discriminate.
Qed.

(** C3, amended: every result of the provider path has its status fixed
    by the thresholds 70 and 40 of its score; the fallback path has a rule
    of its own: suspicious for a marker URL, else verified above 80 and
    pending up to 80. *)
Theorem status_by_path (e : env) (url : string) (d : disaster)
    (w w' : world) (r : verification) (u : Q) (t : Z) :
  verifyImageWithGemini e url d w = (Ret r, w') →
  follows_thresholds r
  ∧ status (mock_result u t url d)
    = (if existsb (fun pattern => includes (toLowerCase url) pattern) suspiciousPatterns
       then "suspicious"
       else if (80 <? Qfloor (u * 40) + 60)%Z then "verified" else "pending").
Proof.
  intros H. split; [|reflexivity].
  destruct (verifyImageWithGemini_result _ _ _ _ _ _ H) as (a & t' & ->).
  apply gemini_result_thresholds.
Qed.

Lemma status_by_path_witness :
  follows_thresholds
    (gemini_result (text_analysis "The picture looks edited and fake.") 1000)
  ∧ status (mock_result (1 # 2) 1000 "https://example.org/flood.jpg" sample_disaster)
    = "pending".
Proof.
  apply (status_by_path online_env "https://example.org/flood.jpg" sample_disaster
           (fresh_world 1000)
           (snd (verifyImageWithGemini online_env "https://example.org/flood.jpg"
                   sample_disaster (fresh_world 1000)))).
  reflexivity.
Defined.

(** C10: the fallback always reports a context match and never the status
    fake.  A URL with a marker gives suspicious, score 25 and manipulation
    detected; any other URL gives a score from 60 to 99, no manipulation,
    and verified above 80, pending otherwise. *)
Theorem mock_verification_shape (u : Q) (t : Z) (url : string) (d : disaster) :
  (0 <= u)%Q → (u < 1)%Q →
  let r := mock_result u t url d in
  context_match r = true
  ∧ status r ≠ "fake"
  ∧ (contains_marker url →
       status r = "suspicious" ∧ authenticity_score r = Some 25%Q
       ∧ manipulation_detected r = true)
  ∧ (¬ contains_marker url →
       ∃ score : Z,
         authenticity_score r = Some (inject_Z score)
         ∧ (60 <= score <= 99)%Z
         ∧ manipulation_detected r = false
         ∧ ((80 < score)%Z → status r = "verified")
         ∧ ((score <= 80)%Z → status r = "pending")).
Proof.
  intros H0 H1 r. subst r.
  pose proof (marker_reflect url) as Href.
  pose proof (random_score_range u H0 H1) as Hrange.
  unfold mock_result.
  cbn [status authenticity_score manipulation_detected context_match].
  set (score := (Qfloor (u * 40) + 60)%Z) in *.
  destruct (existsb _ suspiciousPatterns) eqn:E.
  - split; [reflexivity|]. split; [discriminate|]. split.
    + intros _. repeat split.
    + intros Hno. exfalso. apply Hno. now apply Href.
  - split; [reflexivity|]. split.
    { destruct (80 <? score)%Z; discriminate. }
    split.
    { intros Hm. apply Href in Hm. discriminate. }
    intros _. exists score.
    repeat split; try lia.
    + intros Hgt. apply Z.ltb_lt in Hgt. now rewrite Hgt.
    + intros Hle. apply Z.ltb_ge in Hle. now rewrite Hle.
Qed.

Lemma mock_verification_shape_witness :
  let r := mock_result (1 # 2) 0 "https://example.org/flood.jpg" sample_disaster in
  context_match r = true
  ∧ status r ≠ "fake"
  ∧ (contains_marker "https://example.org/flood.jpg" →
       status r = "suspicious" ∧ authenticity_score r = Some 25%Q
       ∧ manipulation_detected r = true)
  ∧ (¬ contains_marker "https://example.org/flood.jpg" →
       ∃ score : Z,
         authenticity_score r = Some (inject_Z score)
         ∧ (60 <= score <= 99)%Z
         ∧ manipulation_detected r = false
         ∧ ((80 < score)%Z → status r = "verified")
         ∧ ((score <= 80)%Z → status r = "pending")).
Proof.
  apply (mock_verification_shape (1 # 2) 0 "https://example.org/flood.jpg"
           sample_disaster); unfold Qle, Qlt; simpl; lia.
Defined.

End VerificationProps.

(* ===================================================================== *)
(** ** Relevance score *)
(* ===================================================================== *)

Module SocialMediaProps.
Import JsString SocialMedia.

Section Accumulate.
Variable hit : string → bool.
Variable points : Z.

Lemma fold_all_hit (l : list string) (init : Z) :
  (∀ x, In x l → hit x = true) →
  fold_left (fun score x => if hit x then (score + points)%Z else score) l init
    = (init + points * Z.of_nat (length l))%Z.
Proof.
  revert init. induction l as [|a l IH]; intros init Hall; simpl.
  - lia.
  - rewrite (Hall a) by now left.
    rewrite IH by (intros x Hx; apply Hall; now right). lia.
Qed.

Lemma fold_none_hit (l : list string) (init : Z) :
  (∀ x, In x l → hit x = false) →
  fold_left (fun score x => if hit x then (score + points)%Z else score) l init
    = init.
Proof.
  revert init. induction l as [|a l IH]; intros init Hnone; simpl.
  - reflexivity.
  - rewrite (Hnone a) by now left.
    apply IH. intros x Hx. apply Hnone. now right.
Qed.
End Accumulate.

(** The score is the integer part plus the recency bonus. *)
Lemma score_split (timeNow : Z) (p : post) (d : disaster) :
  ∃ base : Z,
    calculateRelevanceScore timeNow p d
      = (inject_Z base
         + max0 (5 - inject_Z (timeNow - post_timestamp p) / inject_Z (1000 * 60 * 60)))%Q
    ∧ base =
        fold_left
          (fun score token => if mentions_token p token then (score + 3)%Z else score)
          (location_tokens d)
          (fold_left
             (fun score tag => if mentions_tag p tag then (score + 5)%Z else score)
             (tags d) (0 + priorityScores (post_priority p))%Z).
Proof.
  eexists. split; [reflexivity|].
  unfold location_tokens. destruct (truthy (location_name d)); reflexivity.
Qed.

(** C7: of two posts that differ only in priority and body, the urgent
    one whose body contains every tag of the disaster and every token of
    its location name scores strictly higher than the low one whose body
    contains none of them. *)
Theorem urgent_full_overlap_outranks (timeNow ts : Z) (body_hi body_lo : string)
    (ks : list string) (d : disaster) :
  let hi := {| post_text := body_hi; post_priority := urgent;
               keywords := ks; post_timestamp := ts |} in
  let lo := {| post_text := body_lo; post_priority := low;
               keywords := ks; post_timestamp := ts |} in
  (∀ tag, In tag (tags d) → mentions_tag hi tag = true) →
  (∀ token, In token (location_tokens d) → mentions_token hi token = true) →
  (∀ tag, In tag (tags d) → mentions_tag lo tag = false) →
  (∀ token, In token (location_tokens d) → mentions_token lo token = false) →
  (calculateRelevanceScore timeNow lo d < calculateRelevanceScore timeNow hi d)%Q.
Proof.
  intros hi lo Htag Htok Hnotag Hnotok.
  destruct (score_split timeNow hi d) as (bh & -> & Hbh).
  destruct (score_split timeNow lo d) as (bl & -> & Hbl).
  rewrite (fold_all_hit (mentions_tag hi) 5) in Hbh by exact Htag.
  rewrite (fold_all_hit (mentions_token hi) 3) in Hbh by exact Htok.
  rewrite (fold_none_hit (mentions_tag lo) 5) in Hbl by exact Hnotag.
  rewrite (fold_none_hit (mentions_token lo) 3) in Hbl by exact Hnotok.
  subst hi lo. cbn [post_priority post_timestamp priorityScores] in *.
  apply Qplus_lt_l. rewrite <- Zlt_Qlt. lia.
Qed.

Lemma urgent_full_overlap_outranks_witness :
  (calculateRelevanceScore 7200000
     {| post_text := "nothing to report"; post_priority := low;
        keywords := ["help"]; post_timestamp := 3600000 |} sample_disaster
   < calculateRelevanceScore 7200000
     {| post_text := "URGENT: flood water rising in Manhattan NYC";
        post_priority := urgent;
        keywords := ["help"]; post_timestamp := 3600000 |} sample_disaster)%Q.
Proof.
  apply (urgent_full_overlap_outranks 7200000 3600000
           "URGENT: flood water rising in Manhattan NYC" "nothing to report"
           ["help"] sample_disaster);
    intros x Hx; vm_compute in Hx; intuition (subst; reflexivity).
Defined.

End SocialMediaProps.

(* ===================================================================== *)
(** ** Room-scoped broadcast *)
(* ===================================================================== *)

Module SocketProps.
Import Socket.

Lemma elem_of_members (sid room : string) (h : hub) :
  sid ∈ members room h ↔ joined sid room h = true.
Proof.
  unfold members, joined. rewrite elem_of_dom. split.
  - intros [rs Hrs]. apply map_lookup_filter_Some in Hrs as [-> Hin].
    simpl in Hin. now apply bool_decide_eq_true.
  - destruct (rooms_of h !! sid) as [rs|] eqn:E; [|discriminate].
    intros Hin. apply bool_decide_eq_true in Hin.
    exists rs. apply map_lookup_filter_Some. split; [exact E | exact Hin].
Qed.

Lemma room_name_inj (a b : string) : room_name a = room_name b → a = b.
Proof. unfold room_name. simpl. intros H. now injection H. Qed.

(** A list without repetition hands a socket at most one copy. *)
Lemma received_send_all (to : list string) (m : message) (sid : string) (h : hub) :
  NoDup to →
  received sid (send_all to m h)
    = (received sid h ++ (if bool_decide (sid ∈ to) then [m] else []))%list.
Proof.
  intros Hnd. unfold received, send_all. simpl.
  rewrite List.filter_app, List.map_app. f_equal.
  induction Hnd as [|a l Hnotin _ IH]; simpl.
  - reflexivity.
  - destruct (String.eqb a sid) eqn:E.
    + apply String.eqb_eq in E. subst a. simpl.
      rewrite bool_decide_eq_true_2 by apply list_elem_of_here.
      rewrite IH. rewrite bool_decide_eq_false_2 by exact Hnotin. reflexivity.
    + apply String.eqb_neq in E. rewrite IH.
      destruct (bool_decide (sid ∈ l)) eqn:El.
      * apply bool_decide_eq_true in El.
        rewrite bool_decide_eq_true_2 by now apply list_elem_of_further.
        reflexivity.
      * apply bool_decide_eq_false in El.
        rewrite bool_decide_eq_false_2; [reflexivity|].
        intros Hin. apply elem_of_cons in Hin as [->|Hin]; [now apply E | now apply El].
Qed.

Lemma received_io_to_emit (room : string) (m : message) (sid : string) (h : hub) :
  received sid (io_to_emit room m h)
    = (received sid h ++ (if joined sid room h then [m] else []))%list.
Proof.
  unfold io_to_emit. rewrite received_send_all by apply NoDup_elements.
  f_equal.
  destruct (joined sid room h) eqn:E.
  - rewrite bool_decide_eq_true_2; [reflexivity|].
    apply elem_of_elements, elem_of_members, E.
  - rewrite bool_decide_eq_false_2; [reflexivity|].
    intros Hin. apply elem_of_elements, elem_of_members in Hin. congruence.
Qed.

(** An unscoped emit reaches every connected socket, joined or not. *)
Lemma received_io_emit (m : message) (sid : string) (h : hub) :
  received sid (io_emit m h)
    = (received sid h ++ (if connected sid h then [m] else []))%list.
Proof.
  unfold io_emit. rewrite received_send_all by apply NoDup_elements.
  f_equal. unfold connected.
  destruct (rooms_of h !! sid) as [rs|] eqn:E.
  - rewrite bool_decide_eq_true_2; [reflexivity|].
    apply elem_of_elements, elem_of_dom. now exists rs.
  - rewrite bool_decide_eq_false_2; [reflexivity|].
    intros Hin. apply elem_of_elements, elem_of_dom in Hin as [rs Hrs]. congruence.
Qed.

Lemma joined_after_join (sid room room' : string) (h : hub) :
  joined sid room (socket_join sid room' h)
    = joined sid room h || (connected sid h && bool_decide (room = room')).
Proof.
  unfold joined, connected, socket_join. simpl.
  rewrite lookup_alter_eq.
  destruct (rooms_of h !! sid) as [rs|]; simpl; [|reflexivity].
  rewrite <- bool_decide_or. apply bool_decide_ext.
  rewrite elem_of_union, elem_of_singleton. reflexivity.
Qed.

Lemma joined_after_leave (sid room room' : string) (h : hub) :
  joined sid room (socket_leave sid room' h)
    = joined sid room h && negb (bool_decide (room = room')).
Proof.
  unfold joined, socket_leave. simpl.
  rewrite lookup_alter_eq.
  destruct (rooms_of h !! sid) as [rs|]; simpl; [|reflexivity].
  destruct (bool_decide (room = room')) eqn:E.
  - apply bool_decide_eq_true in E. subst. rewrite andb_false_r.
    apply bool_decide_eq_false_2.
    rewrite elem_of_difference, elem_of_singleton. tauto.
  - apply bool_decide_eq_false in E. rewrite andb_true_r.
    apply bool_decide_ext.
    rewrite elem_of_difference, elem_of_singleton. tauto.
Qed.

(** C4: a publish to room [R] adds the event, once, to what a socket has
    received exactly when the socket is joined to [R] at that moment.  A
    connected socket that joins [R] is joined; one that leaves [R] is not;
    joining another room [R2] changes nothing for [R], so a socket that
    after connecting joined only [R2] is not reached. *)
Theorem room_publish_reaches_members (h : hub) (R R2 ev data sid t : string) :
  R2 ≠ R →
  sid ≠ room_name R →
  let m := {| event_name := ev; event_data := data |} in
  received sid (emitToDisasterRoom h R ev data)
    = (received sid h ++ (if joined sid (room_name R) h then [m] else []))%list
  ∧ joined sid (room_name R) (join_disaster sid R h) = connected sid h
  ∧ joined sid (room_name R) (leave_disaster sid R h) = false
  ∧ joined sid (room_name R) (join_disaster sid R2 h) = joined sid (room_name R) h
  ∧ joined sid (room_name R) (join_disaster sid R2 (on_connection sid t h)) = false.
Proof.
  intros Hne Hsid m.
  assert (Hrooms : room_name R ≠ room_name R2).
  { intros Heq. apply room_name_inj in Heq. congruence. }
  split; [apply received_io_to_emit|].
  unfold join_disaster, leave_disaster.
  rewrite !joined_after_join, joined_after_leave.
  rewrite bool_decide_eq_true_2 by reflexivity.
  rewrite (bool_decide_eq_false_2 _ Hrooms).
  rewrite !andb_false_r, !orb_false_r, andb_true_r.
  repeat split.
  - unfold joined, connected. destruct (rooms_of h !! sid) as [rs|]; [|reflexivity].
    now rewrite orb_true_r.
  - unfold joined, on_connection. simpl. rewrite lookup_insert_eq.
    apply bool_decide_eq_false_2.
    rewrite elem_of_singleton. congruence.
Qed.

Lemma room_publish_reaches_members_witness :
  let m := {| event_name := "disaster_updated"; event_data := "{}" |} in
  received "s1" (emitToDisasterRoom sample_hub "42" "disaster_updated" "{}")
    = (received "s1" sample_hub
       ++ (if joined "s1" (room_name "42") sample_hub then [m] else []))%list
  ∧ joined "s1" (room_name "42") (join_disaster "s1" "42" sample_hub)
    = connected "s1" sample_hub
  ∧ joined "s1" (room_name "42") (leave_disaster "s1" "42" sample_hub) = false
  ∧ joined "s1" (room_name "42") (join_disaster "s1" "7" sample_hub)
    = joined "s1" (room_name "42") sample_hub
  ∧ joined "s1" (room_name "42")
      (join_disaster "s1" "7" (on_connection "s1" "later" sample_hub)) = false.
Proof.
  apply (room_publish_reaches_members sample_hub "42" "7" "disaster_updated" "{}"
           "s1" "later"); discriminate.
Defined.

End SocketProps.

(* ===================================================================== *)
(** ** The location fallback always produces a value *)
(* ===================================================================== *)

Module RegexProps.
Import Regex.

Lemma repeat_greedy_result (ok : ascii → bool) (s : list ascii) :
  ∀ (min : nat) (k : list ascii → option state) (z : state),
    repeat_greedy ok min s k = Some z → ∃ rest, k rest = Some z.
Proof.
  induction s as [|c s IH]; intros min k z; simpl.
  - destruct (min =? 0)%nat; [eauto | discriminate].
  - destruct (ok c).
    + destruct (repeat_greedy ok (Nat.pred min) s k) eqn:E.
      * intros [= ->]. eapply IH, E.
      * destruct (min =? 0)%nat; [eauto | discriminate].
    + destruct (min =? 0)%nat; [eauto | discriminate].
Qed.

(** A successful run ends in its continuation, and by then the group is
    closed if the expression closes it on every path. *)
Lemma run_result (ci : bool) (r : regex) :
  ∀ (x : state) (k : state → option state) (z : state),
    run ci r x k = Some z →
    ∃ y, k y = Some z ∧ (captures r = true ∨ snd x ≠ None → snd y ≠ None).
Proof.
  induction r as [s|cs|min cs|cs|r1 IH1 r2 IH2|r' IH]; intros x k z; simpl.
  - destruct (strip_literal ci _ (fst x)) as [rest|]; [|discriminate].
    intros H. exists (rest, snd x). split; [exact H|]. intros [?|?]; [discriminate | assumption].
  - destruct (fst x) as [|c rest]; [discriminate|].
    destruct (class_has ci cs c); [|discriminate].
    intros H. exists (rest, snd x). split; [exact H|]. intros [?|?]; [discriminate | assumption].
  - intros H. apply repeat_greedy_result in H as [rest H].
    exists (rest, snd x). split; [exact H|]. intros [?|?]; [discriminate | assumption].
  - assert (Hx : k x = Some z →
                 ∃ y, k y = Some z ∧ (false = true ∨ snd x ≠ None → snd y ≠ None)).
    { intros H. exists x. split; [exact H|]. intros [?|?]; [discriminate | assumption]. }
    destruct (fst x) as [|c rest]; [exact Hx|].
    destruct (class_has ci cs c); [|exact Hx].
    destruct (k (rest, snd x)) eqn:E; [|exact Hx].
    intros [= ->]. exists (rest, snd x). split; [exact E|].
    intros [?|?]; [discriminate | assumption].
  - intros H. apply IH1 in H as (y1 & H & Hc1).
    apply IH2 in H as (y2 & H & Hc2).
    exists y2. split; [exact H|].
    intros [Hc|Hx].
    + apply orb_true_iff in Hc as [Hc|Hc].
      * apply Hc2. right. apply Hc1. now left.
      * apply Hc2. now left.
    + apply Hc2. right. apply Hc1. now right.
  - intros H. apply IH in H as (y & H & _).
    eexists. split; [exact H|]. intros _. discriminate.
Qed.

Lemma search_captures (p : pattern) (s : list ascii) (y : state) :
  captures (body p) = true → search p s = Some y → snd y ≠ None.
Proof.
  intros Hc. induction s as [|c s IH]; simpl.
  - destruct (run _ _ _ _) eqn:E; [|discriminate].
    intros [= ->]. apply run_result in E as (y' & [= ->] & Hy). apply Hy. now left.
  - destruct (run _ _ _ _) eqn:E; [|exact IH].
    intros [= ->]. apply run_result in E as (y' & [= ->] & Hy). apply Hy. now left.
Qed.

Lemma match_group1_defined (p : pattern) (txt : string) :
  captures (body p) = true → match_group1 p txt ≠ Some None.
Proof.
  intros Hc. unfold match_group1.
  destruct (search p _) as [y|] eqn:E; [|discriminate].
  apply (search_captures _ _ _ Hc) in E.
  destruct (snd y); [discriminate | contradiction].
Qed.

End RegexProps.

Module GeocodingProps.
Import JsString Regex Geocoding.

Lemma first_location_total (ps : list pattern) (txt default : string) :
  Forall (fun p => captures (body p) = true) ps →
  ∃ s, first_location ps txt default = Ret s.
Proof.
  induction 1 as [|p ps Hp _ IH]; simpl; [eauto|].
  pose proof (RegexProps.match_group1_defined p txt Hp) as Hdef.
  destruct (match_group1 p txt) as [[g|]|]; [eauto | contradiction | exact IH].
Qed.

(** Every pattern of the fallback closes its group, so [match[1]] is
    defined whenever the pattern matches and the fallback never throws. *)
Lemma mockLocationExtraction_total (txt : string) :
  ∃ g, mockLocationExtraction txt = Ret g
       ∧ service (coords g) = "mock" ∧ mock g = true ∧ original_text g = txt.
Proof.
  unfold mockLocationExtraction.
  destruct (first_location_total locationPatterns txt "New York, NY") as [s ->].
  { repeat constructor. }
  eexists. split; [reflexivity|].
  unfold spread_mock.
  destruct (Auth.or_else _ _) as [[la ln]| |]; repeat split.
Qed.

End GeocodingProps.

(* ===================================================================== *)
(** ** Cache helpers *)
(* ===================================================================== *)

Module CacheProps.
Import Cache.

Ltac unfold_cache :=
  unfold getFromCache, setCache, select_single, delete_eq, upsert, try_catch,
    bind, store_call, read_table, write_table, now, ret, throw; simpl.

Lemma resolutions_provider_events (w w' : world) :
  provider_events w' = provider_events w → resolutions w' = resolutions w.
Proof.
  unfold provider_events, resolutions. intros H.
  assert (Hsub : ∀ l, List.filter is_resolution l
                      = List.filter is_resolution (List.filter is_provider_event l)).
  { induction l as [|ev l IH]; simpl; [reflexivity|].
    destruct ev; simpl; rewrite <- ?IH; reflexivity. }
  rewrite (Hsub (trace w')), (Hsub (trace w)), H. reflexivity.
Qed.

(** A read of a fresh entry through a working store. *)
Lemma getFromCache_hit (key : string) (w : world) (row : cache_row) :
  store_fault w (store_calls w) = Healthy →
  cache_table w !! key = Some row →
  (clock w <= expires_at row)%Z →
  getFromCache key w = (Ret (Some (value row)), snd (store_call (CacheSelect key) w)).
Proof.
  intros Hup Hrow Hfresh. unfold_cache. rewrite Hup. simpl. rewrite Hrow. simpl.
  destruct (Z.ltb_spec (expires_at row) (clock w)); [lia | reflexivity].
Qed.

(** A read never throws; it is quiet, and it leaves the table alone or
    removes the key it was asked for. *)
Lemma getFromCache_total (key : string) (w : world) :
  ∃ o w', getFromCache key w = (Ret o, w') ∧ quiet w w'
          ∧ (cache_table w' = cache_table w ∨ cache_table w' = delete key (cache_table w)).
Proof.
  unfold_cache.
  destruct (store_fault w (store_calls w)) eqn:Hf; simpl.
  - destruct (cache_table w !! key) as [row|] eqn:Hrow; simpl.
    + destruct (expires_at row <? clock w)%Z; simpl.
      * destruct (store_fault w (S (store_calls w))); simpl;
          do 2 eexists; (split; [reflexivity|]); split; try (repeat split); auto.
      * do 2 eexists; (split; [reflexivity|]); split; try (repeat split); auto.
    + do 2 eexists; (split; [reflexivity|]); split; try (repeat split); auto.
  - do 2 eexists; (split; [reflexivity|]); split; try (repeat split); auto.
  - do 2 eexists; (split; [reflexivity|]); split; try (repeat split); auto.
Qed.

(** A read misses when the store fails or holds nothing fresh. *)
Lemma getFromCache_miss (key : string) (w : world) :
  store_fault w (store_calls w) ≠ Healthy ∨ no_fresh_entry key w →
  ∃ w', getFromCache key w = (Ret None, w') ∧ quiet w w'
        ∧ (store_calls w < store_calls w')%nat
        ∧ (store_fault w (store_calls w) ≠ Healthy → cache_table w' = cache_table w).
Proof.
  intros Hcase. unfold_cache.
  destruct (store_fault w (store_calls w)) eqn:Hf; simpl.
  - destruct Hcase as [Hbad|Hstale]; [congruence|].
    destruct (cache_table w !! key) as [row|] eqn:Hrow; simpl.
    + specialize (Hstale row Hrow).
      destruct (Z.ltb_spec (expires_at row) (clock w)); [|lia]. simpl.
      destruct (store_fault w (S (store_calls w))); simpl;
        eexists; (split; [reflexivity|]); simpl; repeat split; auto; congruence.
    + eexists; (split; [reflexivity|]); simpl; repeat split; auto; congruence.
  - eexists; (split; [reflexivity|]); simpl; repeat split; auto.
  - eexists; (split; [reflexivity|]); simpl; repeat split; auto.
Qed.

(** A write never throws and is quiet; it stores the row when the store
    works and changes nothing when it does not. *)
Lemma setCache_total (key : string) (v : payload) (ttl : Z) (w : world) :
  ∃ w', setCache key v ttl w = (Ret tt, w') ∧ quiet w w'
        ∧ cache_table w' =
            match store_fault w (store_calls w) with
            | Healthy =>
                <[key := {| value := v; expires_at := (clock w + ttl * 1000)%Z |}]>
                  (cache_table w)
            | _ => cache_table w
            end.
Proof.
  unfold_cache.
  destruct (store_fault w (store_calls w)); simpl;
    eexists; (split; [reflexivity|]); simpl; repeat split; auto.
Qed.

(** C2: a read of an entry whose expiry has passed misses and, the store
    working, deletes the entry; a second read of the key, at once or at
    any later time, misses as well, and neither read throws. *)
Theorem expired_read_self_cleans (key : string) (w : world) (row : cache_row) (later : Z) :
  cache_table w !! key = Some row →
  (expires_at row < clock w)%Z →
  store_fault w (store_calls w) = Healthy →
  store_fault w (S (store_calls w)) = Healthy →
  (clock w <= later)%Z →
  fst (getFromCache key w) = Ret None
  ∧ cache_table (snd (getFromCache key w)) = delete key (cache_table w)
  ∧ fst (getFromCache key (snd (getFromCache key w))) = Ret None
  ∧ fst (getFromCache key (at_time later (snd (getFromCache key w)))) = Ret None.
Proof.
  intros Hrow Hexp Hsel Hdel Hlater.
  assert (Hfirst : getFromCache key w
                   = (Ret None,
                      snd (write_table (delete key (cache_table w))
                        (snd (store_call (CacheDelete key)
                          (snd (store_call (CacheSelect key) w))))))).
  { unfold_cache. rewrite Hsel. simpl. rewrite Hrow. simpl.
    destruct (Z.ltb_spec (expires_at row) (clock w)); [|lia].
    simpl. rewrite Hdel. reflexivity. }
  rewrite Hfirst. simpl.
  repeat split.
  - unfold_cache. destruct (store_fault w (S (S (store_calls w)))); simpl;
      rewrite ?lookup_delete_eq; reflexivity.
  - unfold_cache. destruct (store_fault w (S (S (store_calls w)))); simpl;
      rewrite ?lookup_delete_eq; reflexivity.
Qed.

Lemma expired_read_self_cleans_witness :
  fst (getFromCache "k" stale_world) = Ret None
  ∧ cache_table (snd (getFromCache "k" stale_world))
    = delete "k" (cache_table stale_world)
  ∧ fst (getFromCache "k" (snd (getFromCache "k" stale_world))) = Ret None
  ∧ fst (getFromCache "k" (at_time 30 (snd (getFromCache "k" stale_world)))) = Ret None.
Proof.
  apply (expired_read_self_cleans "k" stale_world stale_row 30);
    [reflexivity | simpl; lia | reflexivity | reflexivity | simpl; lia].
Defined.

(** The miss does not depend on the store working: whatever fails, both
    reads of an expired entry answer a miss. *)
Lemma expired_read_misses_anyway (key : string) (w : world) (row : cache_row) :
  cache_table w !! key = Some row →
  (expires_at row < clock w)%Z →
  fst (getFromCache key w) = Ret None
  ∧ fst (getFromCache key (snd (getFromCache key w))) = Ret None.
Proof.
  intros Hrow Hexp.
  assert (Hstale : no_fresh_entry key w).
  { intros row' Hrow'. congruence. }
  destruct (getFromCache_miss key w (or_intror Hstale)) as (w1 & H1 & Hq & _ & _).
  destruct (getFromCache_total key w) as (o & w1' & H1' & _ & Htable).
  rewrite H1 in H1'. injection H1' as <- <-.
  rewrite H1. simpl. split; [reflexivity|].
  assert (Hstale1 : no_fresh_entry key w1).
  { intros row' Hrow'. destruct Hq as (Hclock & _). rewrite Hclock.
    destruct Htable as [Ht|Ht]; rewrite Ht in Hrow'.
    - congruence.
    - rewrite lookup_delete_eq in Hrow'. discriminate. }
  destruct (getFromCache_miss key w1 (or_intror Hstale1)) as (w2 & H2 & _).
  now rewrite H2.
Qed.

End CacheProps.

(* ===================================================================== *)
(** ** The two routes *)
(* ===================================================================== *)

Module RouteProps.
Import JsString Cache CacheProps.

Arguments Geocoding.mockLocationExtraction : simpl never.
Arguments Verification.mock_result : simpl never.
Arguments Verification.gemini_result : simpl never.
Arguments Verification.text_analysis : simpl never.
Arguments JsString.base64 : simpl never.
Arguments JsString.includes : simpl never.
Arguments JsString.toLowerCase : simpl never.
Arguments JsString.trim : simpl never.
Arguments Geocoding.remove_quotes : simpl never.
Arguments String.eqb : simpl never.
Arguments String.append : simpl never.

(** Case analysis on the innermost scrutinee of the goal, repeated. *)
Ltac innermost x :=
  match x with
  | context [match ?y with _ => _ end] => innermost y
  | _ => x
  end.

Ltac crunch :=
  repeat (simpl;
          match goal with
          | |- context [match ?x with _ => _ end] =>
              let y := innermost x in destruct y eqn:?
          end).

Ltac done_frame :=
  do 2 eexists; (split; [reflexivity|]); simpl;
  (split; [repeat split|]); reflexivity.

(** *** Providers: always a result, nothing but the record of calls changes *)

Lemma resolve_location_spec (e : env) (txt : string) (w : world) :
  ∃ g w', Geocoding.resolve_location e txt w = (Ret g, w')
          ∧ off_store w w' ∧ resolutions w' = S (resolutions w).
Proof.
  destruct (GeocodingProps.mockLocationExtraction_total txt) as (g0 & Hg0 & _).
  unfold Geocoding.resolve_location, Geocoding.extractLocationWithGemini,
    Geocoding.geocodeLocation, Geocoding.geocodeWithGoogleMaps,
    Geocoding.geocodeWithMapbox, Geocoding.geocodeWithNominatim,
    try_catch, bind, emit, lift, throw, ret.
  rewrite Hg0. unfold resolutions.
  crunch; done_frame.
Qed.

Lemma verify_or_mock_spec (e : env) (url : string) (d : disaster) (w : world) :
  ∃ v w', Verification.verify_or_mock e url d w = (Ret v, w')
          ∧ off_store w w' ∧ resolutions w' = S (resolutions w).
Proof.
  unfold Verification.verify_or_mock, Verification.verifyImageWithGemini,
    Verification.mockImageVerification, try_catch, bind, emit, lift, throw,
    ret, now, random.
  unfold resolutions.
  crunch; done_frame.
Qed.


(** *** The route, payload by payload *)

Lemma resolve_invalid (e : env) (req : resolution_request) (w : world) :
  request_input req = None →
  resolve e req w
    = (Ret {| http_status := 400; http_body := ErrorBody (rejection_reason req) |}, w).
Proof.
  destruct req as [g|v]; unfold request_input, resolve, Geocoding.route,
    Verification.route, try_catch, ret; simpl.
  - destruct (truthy (Geocoding.text g)) eqn:Ht.
    { destruct (Geocoding.text g); [discriminate | discriminate Ht]. }
    destruct (truthy (Geocoding.description g)) eqn:Hd.
    { destruct (Geocoding.description g); [discriminate | discriminate Hd]. }
    reflexivity.
  - destruct (truthy (Verification.image_url v)) eqn:Hu.
    { destruct (Verification.image_url v); [discriminate | discriminate Hu]. }
    reflexivity.
Qed.

Lemma resolve_valid (e : env) (req : resolution_request) (input : string) (w : world) :
  request_input req = Some input →
  resolve e req w
    = try_catch
        (let* cachedResult := getFromCache (derived_key req input) in
         match cachedResult with
         | Some cached => ret {| http_status := 200; http_body := Json cached |}
         | None => miss_branch e req input
         end)
        (fun message => ret {| http_status := 500; http_body := ErrorBody message |}) w.
Proof.
  destruct req as [g|v]; unfold request_input, resolve, Geocoding.route,
    Verification.route, derived_key, miss_branch.
  - destruct (truthy (Geocoding.text g)) eqn:Ht.
    + intros ->. reflexivity.
    + destruct (truthy (Geocoding.description g)) eqn:Hd; [|discriminate].
      intros ->. reflexivity.
  - destruct (truthy (Verification.image_url v)) eqn:Hu; [|discriminate].
    intros ->. reflexivity.
Qed.

(** After a miss either the providers (or the fallback) produce a value,
    which is answered with status 200 and written to the cache, or the
    verification route is stopped by its database calls. *)
Lemma miss_branch_cases (e : env) (req : resolution_request) (input : string) (w : world) :
  (∃ p w1,
      miss_branch e req input w
        = (Ret {| http_status := 200; http_body := Json p |}, w1)
      ∧ clock w1 = clock w ∧ store_fault w1 = store_fault w
      ∧ resolutions w1 = S (resolutions w)
      ∧ cache_table w1 =
          match store_fault w (store_calls w) with
          | Healthy =>
              <[derived_key req input :=
                  {| value := p; expires_at := (clock w + ttl_seconds req * 1000)%Z |}]>
                (cache_table w)
          | _ => cache_table w
          end)
  ∨ (∃ o w1,
        miss_branch e req input w = (o, w1)
        ∧ (∀ r, o = Ret r → http_status r ≠ 200%Z)
        ∧ ∃ v, req = VerifyImageRequest v ∧ database_trouble e v).
Proof.
  destruct req as [g|v]; unfold miss_branch, derived_key, ttl_seconds.
  - left. unfold Geocoding.on_miss, bind.
    destruct (resolve_location_spec e input w) as (r & w' & -> & Hoff & Hres).
    destruct Hoff as (Hc & Ht & Hf & Hn).
    destruct (setCache_total (Geocoding.cacheKey input) (GeoValue r) 7200 w')
      as (w1 & -> & Hq & Htable).
    destruct Hq as (Hc1 & Hf1 & _ & _ & Hp1).
    do 2 eexists. split; [reflexivity|].
    rewrite Hf, Hn, Ht, Hc in Htable.
    repeat split; try congruence.
    rewrite (resolutions_provider_events _ _ Hp1). exact Hres.
  - unfold Verification.on_miss, bind, emit, lift, throw, ret. simpl.
    destruct (disasters_single e (Verification.id v)) as [[[d|] [err|]]|m] eqn:Hd;
      simpl.
    2: {
      set (w0 := {| clock := clock w; cache_table := cache_table w;
                    store_fault := store_fault w; store_calls := store_calls w;
                    random_source := random_source w; random_calls := random_calls w;
                    trace := DisasterSelect (Verification.id v) :: trace w |}).
      destruct (verify_or_mock_spec e input d w0) as (r & w' & -> & Hoff & Hres).
      destruct Hoff as (Hc & Ht & Hf & Hn). simpl in Hc, Ht, Hf, Hn.
      assert (Hres0 : resolutions w' = S (resolutions w)) by exact Hres.
      destruct (truthy (Verification.report_id v)) eqn:Hrid; simpl.
      - destruct (reports_update e _ r) as [err|m] eqn:Hupd; simpl.
        + match goal with
          | |- context [setCache ?k ?p ?t ?x] =>
              destruct (setCache_total k p t x) as (w1 & -> & Hq & Htable)
          end.
          destruct Hq as (Hc1 & Hf1 & _ & _ & Hp1). simpl in *.
          left. do 2 eexists. split; [reflexivity|].
          rewrite Hf, Hn, Ht, Hc in Htable.
          repeat split; try congruence.
          rewrite (resolutions_provider_events _ _ Hp1).
          unfold resolutions in *. simpl. exact Hres0.
        + right. do 2 eexists. split; [reflexivity|]. split; [intros ?; discriminate|].
          exists v. split; [reflexivity|]. right. split; [exact Hrid|]. eauto.
      - destruct (setCache_total (Verification.cacheKey input) (VerValue r) 3600 w')
          as (w1 & -> & Hq & Htable).
        destruct Hq as (Hc1 & Hf1 & _ & _ & Hp1).
        left. do 2 eexists. split; [reflexivity|].
        rewrite Hf, Hn, Ht, Hc in Htable.
        repeat split; try congruence.
        rewrite (resolutions_provider_events _ _ Hp1). exact Hres0. }
    all: right; do 2 eexists; (split; [reflexivity|]);
      (split; [intros r [= <-]; simpl; discriminate || lia |]);
      exists v; (split; [reflexivity|]); left; intros d'; congruence.
Qed.


(** The route always answers. *)
Lemma resolve_total (e : env) (req : resolution_request) (w : world) :
  ∃ r w', resolve e req w = (Ret r, w').
Proof.
  destruct (request_input req) as [input|] eqn:Hin.
  - rewrite (resolve_valid e req input w Hin). unfold try_catch, bind, ret.
    destruct (getFromCache_total (derived_key req input) w) as (o & wa & -> & _).
    destruct o as [cached|]; [eauto|].
    destruct (miss_branch e req input wa) as [[r|m] w1]; eauto.
  - rewrite (resolve_invalid e req w Hin). eauto.
Qed.

(** *** Cache hits *)

Lemma resolve_hit (e : env) (req : resolution_request) (input : string)
    (w : world) (row : cache_row) :
  request_input req = Some input →
  store_fault w (store_calls w) = Healthy →
  cache_table w !! derived_key req input = Some row →
  (clock w <= expires_at row)%Z →
  resolve e req w
    = (Ret {| http_status := 200; http_body := Json (value row) |},
       snd (store_call (CacheSelect (derived_key req input)) w)).
Proof.
  intros Hin Hup Hrow Hfresh.
  rewrite (resolve_valid e req input w Hin). unfold try_catch, bind.
  rewrite (getFromCache_hit _ w row Hup Hrow Hfresh). reflexivity.
Qed.

(** C1: with a fresh entry under the derived key the route answers the
    cached value and calls no provider; hence, after a first resolution
    on a miss, the same request repeated within the time to live is
    answered with the same result, and over both calls the providers are
    entered exactly once. *)
Theorem cached_resolution_skips_providers (e : env) (req : resolution_request)
    (input : string) :
  request_input req = Some input →
  (∀ (w : world) (row : cache_row),
      store_fault w (store_calls w) = Healthy →
      cache_table w !! derived_key req input = Some row →
      (clock w <= expires_at row)%Z →
      ∃ w', resolve e req w
              = (Ret {| http_status := 200; http_body := Json (value row) |}, w')
            ∧ provider_events w' = provider_events w
            ∧ cache_table w' = cache_table w)
  ∧ (∀ (w : world) (t2 : Z) (r1 : response) (w1 : world),
        store_up w →
        no_fresh_entry (derived_key req input) w →
        resolve e req w = (Ret r1, w1) →
        http_status r1 = 200%Z →
        (clock w <= t2 <= clock w + ttl_seconds req * 1000)%Z →
        resolutions w1 = S (resolutions w)
        ∧ ∃ w2, resolve e req (at_time t2 w1) = (Ret r1, w2)
                ∧ provider_events w2 = provider_events w1
                ∧ resolutions w2 = resolutions w1).
Proof.
  intros Hin. split.
  - intros w row Hup Hrow Hfresh.
    rewrite (resolve_hit e req input w row Hin Hup Hrow Hfresh).
    eexists. split; [reflexivity|]. split; reflexivity.
  - intros w t2 r1 w1 Hup Hstale Hfirst H200 Hwin.
    rewrite (resolve_valid e req input w Hin) in Hfirst.
    unfold try_catch, bind in Hfirst.
    destruct (getFromCache_miss _ w (or_intror Hstale))
      as (wa & Hget & (Hca & Hfa & _ & _ & Hpa) & _ & _).
    rewrite Hget in Hfirst.
    destruct (miss_branch_cases e req input wa)
      as [(p & wb & Hmiss & Hcb & Hfb & Hrb & Htb)
         |(o & wb & Hmiss & Hbad & _)];
      rewrite Hmiss in Hfirst.
    + injection Hfirst as <- <-.
      rewrite Hfa, (Hup (store_calls wa)) in Htb.
      assert (Hres1 : resolutions wb = S (resolutions w)).
      { rewrite Hrb. f_equal. now apply resolutions_provider_events. }
      split; [exact Hres1|].
      assert (Hhit := resolve_hit e req input (at_time t2 wb)
                {| value := p; expires_at := (clock wa + ttl_seconds req * 1000)%Z |} Hin).
      simpl in Hhit.
      rewrite Hhit.
      * eexists. split; [reflexivity|]. split; reflexivity.
      * rewrite Hfb, Hfa. apply Hup.
      * rewrite Htb. apply lookup_insert_eq.
      * lia.
    + exfalso. destruct o as [r|m].
      * injection Hfirst as <- _. now apply (Hbad r).
      * unfold ret in Hfirst. injection Hfirst as <- _. discriminate.
Qed.

Lemma cached_resolution_skips_providers_witness :
  (∃ w', resolve offline_env manhattan_request (at_time 1000 warm_world)
           = (Ret {| http_status := 200; http_body := Json (GeoValue manhattan_result) |}, w')
         ∧ provider_events w' = provider_events (at_time 1000 warm_world)
         ∧ cache_table w' = cache_table (at_time 1000 warm_world))
  ∧ (resolutions warm_world = S (resolutions (fresh_world 0))
     ∧ ∃ w2, resolve offline_env manhattan_request (at_time 7200000 warm_world)
               = (fst (resolve offline_env manhattan_request (fresh_world 0)), w2)
             ∧ provider_events w2 = provider_events warm_world
             ∧ resolutions w2 = resolutions warm_world).
Proof.
  destruct (cached_resolution_skips_providers offline_env manhattan_request
              manhattan_text eq_refl) as [Hhit Htwice].
  split.
  - apply (Hhit (at_time 1000 warm_world)
             {| value := GeoValue manhattan_result; expires_at := 7200000 |});
      [reflexivity | reflexivity | simpl; lia].
  - apply (Htwice (fresh_world 0) 7200000%Z
             {| http_status := 200; http_body := Json (GeoValue manhattan_result) |}
             warm_world);
      [intros n; reflexivity | intros row Hrow; discriminate Hrow
      | reflexivity | reflexivity | simpl; lia].
Defined.


(** *** Results that do not depend on the cache *)

Lemma blind_ret {A} (a : A) : store_blind (ret a).
Proof. intros w1 w2 H. split; [reflexivity | exact H]. Qed.

Lemma blind_throw {A} (m : string) : store_blind (@throw A m).
Proof. intros w1 w2 H. split; [reflexivity | exact H]. Qed.

Lemma blind_lift {A} (o : outcome A) : store_blind (lift o).
Proof. intros w1 w2 H. split; [reflexivity | exact H]. Qed.

Lemma blind_emit (ev : event) : store_blind (emit ev).
Proof. intros w1 w2 H. split; [reflexivity | exact H]. Qed.

Lemma blind_now : store_blind now.
Proof. intros w1 w2 H. split; [simpl; f_equal; apply H | exact H]. Qed.

Lemma blind_random : store_blind random.
Proof.
  intros w1 w2 (Hc & Hs & Hn). unfold random, same_inputs. simpl.
  rewrite Hs, Hn. repeat split; assumption.
Qed.

Lemma blind_bind {A B} (c : M A) (k : A → M B) :
  store_blind c → (∀ a, store_blind (k a)) → store_blind (bind c k).
Proof.
  intros Hc Hk w1 w2 Hs. unfold bind.
  destruct (Hc w1 w2 Hs) as [Hf Hs'].
  destruct (c w1) as [o1 w1'], (c w2) as [o2 w2']. simpl in Hf, Hs'. subst o2.
  destruct o1 as [a|m]; [now apply Hk | split; [reflexivity | exact Hs']].
Qed.

Lemma blind_try {A} (c : M A) (h : string → M A) :
  store_blind c → (∀ m, store_blind (h m)) → store_blind (try_catch c h).
Proof.
  intros Hc Hh w1 w2 Hs. unfold try_catch.
  destruct (Hc w1 w2 Hs) as [Hf Hs'].
  destruct (c w1) as [o1 w1'], (c w2) as [o2 w2']. simpl in Hf, Hs'. subst o2.
  destruct o1 as [a|m]; [split; [reflexivity | exact Hs'] | now apply Hh].
Qed.

(** A write answers nothing and never throws, whatever the store does. *)
Lemma blind_setCache (key : string) (v : payload) (ttl : Z) :
  store_blind (setCache key v ttl).
Proof.
  intros w1 w2 (Hc & Hs & Hn).
  destruct (setCache_total key v ttl w1) as (w1' & -> & (Hc1 & _ & Hs1 & Hn1 & _) & _).
  destruct (setCache_total key v ttl w2) as (w2' & -> & (Hc2 & _ & Hs2 & Hn2 & _) & _).
  simpl. unfold same_inputs. repeat split; congruence.
Qed.

Ltac blind :=
  repeat first
    [ apply blind_ret | apply blind_throw | apply blind_lift | apply blind_emit
    | apply blind_now | apply blind_random | apply blind_setCache
    | apply blind_bind; [|intros ?] | apply blind_try; [|intros ?]
    | match goal with
      | |- store_blind (match ?x with _ => _ end) => destruct x
      end
    | progress cbv zeta ].

Lemma blind_miss_branch (e : env) (req : resolution_request) (input : string) :
  store_blind (miss_branch e req input).
Proof.
  destruct req as [g|v]; unfold miss_branch.
  - unfold Geocoding.on_miss, Geocoding.resolve_location,
      Geocoding.extractLocationWithGemini, Geocoding.geocodeLocation,
      Geocoding.geocodeWithGoogleMaps, Geocoding.geocodeWithMapbox,
      Geocoding.geocodeWithNominatim.
    blind.
  - unfold Verification.on_miss, Verification.verify_or_mock,
      Verification.verifyImageWithGemini, Verification.mockImageVerification.
    blind.
Qed.

(** C5: while the store fails, a read answers a miss and a write changes
    nothing, neither throws, and a resolution is answered exactly as it is
    over a reachable, empty cache. *)
Theorem cache_faults_are_absorbed (e : env) (req : resolution_request)
    (key : string) (v : payload) (ttl : Z) (w : world) :
  store_down w →
  (∃ w', getFromCache key w = (Ret None, w') ∧ cache_table w' = cache_table w)
  ∧ (∃ w', setCache key v ttl w = (Ret tt, w') ∧ cache_table w' = cache_table w)
  ∧ fst (resolve e req w) = fst (resolve e req (with_empty_cache w)).
Proof.
  intros Hdown. pose proof (Hdown (store_calls w)) as Hnow. repeat split.
  - destruct (getFromCache_miss key w (or_introl Hnow)) as (w' & Hget & _ & _ & Hsame).
    exists w'. split; [exact Hget | now apply Hsame].
  - destruct (setCache_total key v ttl w) as (w' & Hset & _ & Htable).
    exists w'. split; [exact Hset|].
    rewrite Htable. destruct (store_fault w (store_calls w)); [contradiction | reflexivity..].
  - destruct (request_input req) as [input|] eqn:Hin.
    + rewrite !(resolve_valid e req input _ Hin). unfold try_catch, bind.
      destruct (getFromCache_miss (derived_key req input) w (or_introl Hnow))
        as (wa & -> & (Hca & _ & Hsa & Hna & _) & _).
      assert (Hempty : no_fresh_entry (derived_key req input) (with_empty_cache w)).
      { intros row Hrow. simpl in Hrow. rewrite lookup_empty in Hrow. discriminate. }
      destruct (getFromCache_miss _ (with_empty_cache w) (or_intror Hempty))
        as (wb & -> & (Hcb & _ & Hsb & Hnb & _) & _).
      simpl in Hcb, Hsb, Hnb.
      assert (Hs : same_inputs wa wb) by (unfold same_inputs; repeat split; congruence).
      destruct (blind_miss_branch e req input wa wb Hs) as [Hf _].
      destruct (miss_branch e req input wa) as [o1 w1'],
               (miss_branch e req input wb) as [o2 w2'].
      simpl in Hf. subst o2. destruct o1; reflexivity.
    + rewrite !(resolve_invalid e req _ Hin). reflexivity.
Qed.

Lemma cache_faults_are_absorbed_witness :
  (∃ w', getFromCache "k" (unreachable_world 0) = (Ret None, w')
         ∧ cache_table w' = cache_table (unreachable_world 0))
  ∧ (∃ w', setCache "k" (GeoValue manhattan_result) 3600 (unreachable_world 0) = (Ret tt, w')
           ∧ cache_table w' = cache_table (unreachable_world 0))
  ∧ fst (resolve offline_env image_request (unreachable_world 0))
    = fst (resolve offline_env image_request (with_empty_cache (unreachable_world 0))).
Proof.
  apply (cache_faults_are_absorbed offline_env image_request "k"
           (GeoValue manhattan_result) 3600 (unreachable_world 0)).
  intros n. discriminate.
Defined.


(** *** The fallback end to end *)

Lemma manhattan_fallback : Geocoding.mockLocationExtraction manhattan_text = Ret manhattan_result.
Proof. vm_compute. reflexivity. Qed.

(** Without a key for the text provider the chain throws before any
    request leaves, and the fallback value is answered. *)
Lemma resolve_location_unconfigured (e : env) (txt : string) (g : geocode_result)
    (w : world) :
  truthy (GEMINI_API_KEY e) = false →
  Geocoding.mockLocationExtraction txt = Ret g →
  Geocoding.resolve_location e txt w
    = (Ret g, snd (emit (Invoke "extractLocationWithGemini" txt) w)).
Proof.
  intros Hkey Hg.
  unfold Geocoding.resolve_location, Geocoding.extractLocationWithGemini,
    try_catch, bind, emit, lift, throw.
  rewrite Hkey, Hg. reflexivity.
Qed.

(** C6: with no text provider configured and nothing fresh cached for it,
    the text about Manhattan is answered with status 200 by the fallback:
    the extracted location contains Manhattan, has no entry of its own in
    the coordinate table and so gets the coordinates of the default entry
    New York, NY, and the service is mock. *)
Theorem manhattan_resolves_by_fallback (e : env) (w : world) (other : option string) :
  truthy (GEMINI_API_KEY e) = false →
  no_fresh_entry (Geocoding.cacheKey manhattan_text) w →
  ∃ g w',
    Geocoding.route e {| Geocoding.text := Some manhattan_text;
                         Geocoding.description := other |} w
      = (Ret {| http_status := 200; http_body := Json (GeoValue g) |}, w')
    ∧ includes (extracted_location g) "Manhattan" = true
    ∧ JsObject.own_property Geocoding.mockCoordinates (extracted_location g) = None
    ∧ (∃ la ln,
          JsObject.own_property Geocoding.mockCoordinates "New York, NY" = Some (la, ln)
          ∧ lat (coords g) = Some la ∧ lng (coords g) = Some ln)
    ∧ service (coords g) = "mock"
    ∧ mock g = true.
Proof.
  intros Hkey Hstale.
  exists manhattan_result.
  pose proof (resolve_valid e
                (GeocodeRequest {| Geocoding.text := Some manhattan_text;
                                   Geocoding.description := other |})
                manhattan_text w eq_refl) as Hroute.
  unfold resolve in Hroute. rewrite Hroute. clear Hroute.
  unfold try_catch, bind, derived_key, miss_branch.
  destruct (getFromCache_miss _ w (or_intror Hstale)) as (wa & -> & _).
  unfold Geocoding.on_miss, bind.
  rewrite (resolve_location_unconfigured e manhattan_text manhattan_result wa Hkey
             manhattan_fallback).
  match goal with
  | |- context [setCache ?k ?p ?t ?x] =>
      destruct (setCache_total k p t x) as (w1 & -> & _)
  end.
  eexists. split; [reflexivity|].
  split; [vm_compute; reflexivity|].
  split; [vm_compute; reflexivity|].
  split; [|split; reflexivity].
  do 2 eexists. split; [vm_compute; reflexivity|]. split; reflexivity.
Qed.

Lemma manhattan_resolves_by_fallback_witness :
  ∃ g w',
    Geocoding.route offline_env {| Geocoding.text := Some manhattan_text;
                                   Geocoding.description := None |} (fresh_world 0)
      = (Ret {| http_status := 200; http_body := Json (GeoValue g) |}, w')
    ∧ includes (extracted_location g) "Manhattan" = true
    ∧ JsObject.own_property Geocoding.mockCoordinates (extracted_location g) = None
    ∧ (∃ la ln,
          JsObject.own_property Geocoding.mockCoordinates "New York, NY" = Some (la, ln)
          ∧ lat (coords g) = Some la ∧ lng (coords g) = Some ln)
    ∧ service (coords g) = "mock"
    ∧ mock g = true.
Proof.
  apply (manhattan_resolves_by_fallback offline_env (fresh_world 0) None);
    [reflexivity | intros row Hrow; discriminate Hrow].
Defined.

(** *** Rejections *)



End RouteProps.

(* ===================================================================== *)
(** ** More on the cache helpers *)
(* ===================================================================== *)

Module CacheExtra.
Import Cache CacheProps CacheSweep.

(** What a read through a working store answers. *)
Lemma getFromCache_healthy (key : string) (w : world) :
  store_fault w (store_calls w) = Healthy →
  fst (getFromCache key w)
    = Ret (match cache_table w !! key with
           | Some row => if (expires_at row <? clock w)%Z then None else Some (value row)
           | None => None
           end).
Proof.
  intros Hup.
  destruct (cache_table w !! key) as [row|] eqn:Hrow.
  - destruct (Z.ltb_spec (expires_at row) (clock w)) as [Hexp|Hfresh].
    + destruct (getFromCache_miss key w) as (w' & -> & _); [|reflexivity].
      right. intros row' Hrow'. congruence.
    + now rewrite (getFromCache_hit key w row Hup Hrow Hfresh).
  - destruct (getFromCache_miss key w) as (w' & -> & _); [|reflexivity].
    right. intros row' Hrow'. congruence.
Qed.






(** X3: reads and writes of one key leave every other key of the table as
    it was, whatever the store does. *)
Theorem other_keys_untouched (key other : string) (v : payload) (ttl : Z) (w : world) :
  key ≠ other →
  cache_table (snd (getFromCache key w)) !! other = cache_table w !! other
  ∧ cache_table (snd (setCache key v ttl w)) !! other = cache_table w !! other.
Proof.
  intros Hne. split.
  - destruct (getFromCache_total key w) as (o & w' & -> & _ & [Ht|Ht]); simpl;
      rewrite Ht; [reflexivity | now apply lookup_delete_ne].
  - destruct (setCache_total key v ttl w) as (w' & -> & _ & Ht). simpl. rewrite Ht.
    destruct (store_fault w (store_calls w)); [now apply lookup_insert_ne | reflexivity..].
Qed.

Lemma other_keys_untouched_witness :
  cache_table (snd (getFromCache "k" stale_world)) !! "other"
    = cache_table stale_world !! "other"
  ∧ cache_table (snd (setCache "k" (GeoValue manhattan_result) 60 stale_world)) !! "other"
    = cache_table stale_world !! "other".
Proof.
  apply (other_keys_untouched "k" "other" (GeoValue manhattan_result) 60 stale_world).
  discriminate.
Defined.

Ltac unfold_sweep :=
  unfold clearExpiredCache, delete_lt_expires_at, range_call, try_catch, bind,
    read_table, write_table, now, ret, throw; simpl.

(** The sweep never throws and is quiet; it filters the table when the
    store works and changes nothing when it does not. *)
Lemma clearExpiredCache_total (w : world) :
  ∃ w', clearExpiredCache w = (Ret tt, w') ∧ quiet w w'
        ∧ store_calls w' = S (store_calls w)
        ∧ cache_table w' =
            match store_fault w (store_calls w) with
            | Healthy =>
                filter (fun kv => ¬ (expires_at (snd kv) < clock w)%Z) (cache_table w)
            | _ => cache_table w
            end.
Proof.
  unfold_sweep.
  destruct (store_fault w (store_calls w)); simpl;
    eexists; (split; [reflexivity|]); simpl; repeat split; auto.
Qed.

Lemma sweep_lookup (w : world) (key : string) :
  fst (clearExpiredCache w) = Ret tt
  ∧ cache_table (snd (clearExpiredCache w)) !! key =
      match store_fault w (store_calls w) with
      | Healthy =>
          match cache_table w !! key with
          | Some row => if (expires_at row <? clock w)%Z then None else Some row
          | None => None
          end
      | _ => cache_table w !! key
      end.
Proof.
  destruct (clearExpiredCache_total w) as (w' & -> & _ & _ & Ht). simpl.
  split; [reflexivity|]. rewrite Ht.
  destruct (store_fault w (store_calls w)); try reflexivity.
  destruct (cache_table w !! key) as [row|] eqn:Hrow.
  - destruct (Z.ltb_spec (expires_at row) (clock w)) as [Hexp|Hfresh].
    + apply map_lookup_filter_None. right. intros row' Hrow' Hkeep.
      simpl in Hkeep. rewrite Hrow in Hrow'. injection Hrow' as <-. lia.
    + apply map_lookup_filter_Some. split; [exact Hrow|]. simpl. lia.
  - apply map_lookup_filter_None. now left.
Qed.

(** X4: the sweep never throws; through a working store it removes exactly
    the rows whose expiry lies before the current time and keeps every
    other row as it is; through a failing store it changes nothing. *)
Theorem sweep_removes_exactly_expired (w : world) (key : string) :
  fst (clearExpiredCache w) = Ret tt
  ∧ cache_table (snd (clearExpiredCache w)) !! key =
      match store_fault w (store_calls w) with
      | Healthy =>
          match cache_table w !! key with
          | Some row => if (expires_at row <? clock w)%Z then None else Some row
          | None => None
          end
      | _ => cache_table w !! key
      end.
Proof. apply sweep_lookup. Qed.

(** X5: a sweep is invisible to readers: with a working store, a read of
    any key answers after the sweep what it would have answered without
    it, at the time of the sweep and at any later time. *)
Theorem sweep_is_invisible (w : world) (key : string) (t : Z) :
  store_up w →
  (clock w <= t)%Z →
  fst (getFromCache key (at_time t (snd (clearExpiredCache w))))
    = fst (getFromCache key (at_time t w)).
Proof.
  intros Hup Hlater.
  pose proof (sweep_lookup w key) as [_ Hlook].
  destruct (clearExpiredCache_total w) as (w' & Hsweep & (_ & Hf & _) & _ & _).
  rewrite Hsweep in *. simpl in Hlook |- *.
  rewrite !getFromCache_healthy by (simpl; rewrite ?Hf; apply Hup).
  simpl. rewrite Hlook, (Hup (store_calls w)).
  destruct (cache_table w !! key) as [row|]; [|reflexivity].
  destruct (Z.ltb_spec (expires_at row) (clock w)) as [Hexp|Hfresh]; [|reflexivity].
  destruct (Z.ltb_spec (expires_at row) t); [reflexivity | lia].
Qed.

Lemma sweep_is_invisible_witness :
  fst (getFromCache "k" (at_time 25 (snd (clearExpiredCache stale_world))))
    = fst (getFromCache "k" (at_time 25 stale_world)).
Proof.
  apply (sweep_is_invisible stale_world "k" 25);
    [intros n; reflexivity | simpl; lia].
Defined.

End CacheExtra.

(* ===================================================================== *)
(** ** Cache keys *)
(* ===================================================================== *)

Module KeyProps.
Import JsString Base64Parts.


























End KeyProps.

(* ===================================================================== *)
(** ** More on the location fallback *)
(* ===================================================================== *)

Module FallbackProps.
Import JsString JsObject Regex Geocoding RouteTerms.

(** *** Text without letters *)

Lemma upper_char_letterless (c : ascii) : letterless c → upper_char c = c.
Proof. intros [_ Hl]. unfold upper_char. now rewrite Hl. Qed.

Lemma lower_char_letterless (c : ascii) : letterless c → lower_char c = c.
Proof. intros [Hu _]. unfold lower_char. now rewrite Hu. Qed.

Lemma upper_class_rejects (ci : bool) (c : ascii) :
  letterless c → class_has ci upper c = false.
Proof.
  intros Hc. unfold class_has, upper.
  rewrite (upper_char_letterless c Hc), (lower_char_letterless c Hc).
  destruct Hc as [Hu _].
  assert (Hitem : item_has (Range "A" "Z") c = false) by exact Hu.
  destruct ci; cbn [existsb]; rewrite Hitem; reflexivity.
Qed.

Lemma word_rejects (a : ascii) (rest : list ascii) (c : ascii) (s : list ascii) :
  is_upper (upper_char a) = true → letterless c →
  strip_literal true (a :: rest) (c :: s) = None.
Proof.
  intros Ha Hc. simpl. unfold char_eq.
  rewrite (upper_char_letterless c Hc).
  destruct (Ascii.eqb (upper_char a) c) eqn:E; [|reflexivity].
  apply Ascii.eqb_eq in E. subst c. destruct Hc as [Hu _]. congruence.
Qed.

Lemma after_word_rejects (w : string) (a : ascii) (rest : string) (s : list ascii) :
  w = String a rest → is_upper (upper_char a) = true →
  Forall letterless s → search (after_word w) s = None.
Proof.
  intros -> Ha Hs.
  induction Hs as [|c s Hc _ IH];
    cbn [search after_word body ignore_case run fst snd list_ascii_of_string].
  - reflexivity.
  - rewrite (word_rejects a _ c s Ha Hc). exact IH.
Qed.

Lemma capitalised_rejects (p : pattern) (r : regex) (s : list ascii) :
  body p = Group (Seq (Chars upper) r) →
  Forall letterless s → search p s = None.
Proof.
  intros Hb Hs.
  induction Hs as [|c s Hc _ IH]; cbn [search]; rewrite Hb; cbn [run fst snd].
  - reflexivity.
  - rewrite (upper_class_rejects _ c Hc). exact IH.
Qed.

Lemma no_letters_Forall (txt : string) :
  no_letters txt = true → Forall letterless (list_ascii_of_string txt).
Proof.
  unfold no_letters. rewrite forallb_forall. intros H.
  apply List.Forall_forall. intros c Hc. specialize (H c Hc).
  apply negb_true_iff, orb_false_iff in H. exact H.
Qed.

(** X7: a text without any letter (digits, punctuation, white space, or
    nothing at all) matches none of the four patterns, and the fallback
    answers the default location New York, NY with its coordinates. *)
Theorem letterless_text_gets_default (txt : string) :
  no_letters txt = true →
  mockLocationExtraction txt
    = Ret {| original_text := txt;
             extracted_location := extracted_location default_location;
             coords := coords default_location;
             success := true;
             mock := true |}.
Proof.
  intros H. apply no_letters_Forall in H.
  unfold mockLocationExtraction, locationPatterns, first_location, match_group1.
  rewrite (after_word_rejects "in" "i" "n" _ eq_refl eq_refl H).
  rewrite (after_word_rejects "at" "a" "t" _ eq_refl eq_refl H).
  rewrite (after_word_rejects "near" "n" "ear" _ eq_refl eq_refl H).
  erewrite capitalised_rejects; [reflexivity | reflexivity | exact H].
Qed.

Lemma letterless_text_gets_default_witness :
  mockLocationExtraction "911 !! 12:30"
    = Ret {| original_text := "911 !! 12:30";
             extracted_location := extracted_location default_location;
             coords := coords default_location;
             success := true;
             mock := true |}.
Proof. apply (letterless_text_gets_default "911 !! 12:30"). reflexivity. Defined.

(** *** Shape of the answer *)

Lemma fallback_shape (txt : string) :
  ∃ g, mockLocationExtraction txt = Ret g
       ∧ original_text g = txt
       ∧ formatted_address (coords g) = extracted_location g
       ∧ service (coords g) = "mock"
       ∧ success g = true ∧ mock g = true
       ∧ (lat (coords g) = None ↔ lng (coords g) = None)
       ∧ (lat (coords g) = None → In (extracted_location g) prototype_keys).
Proof.
  unfold mockLocationExtraction.
  destruct (GeocodingProps.first_location_total locationPatterns txt "New York, NY")
    as [s ->]; [repeat constructor|].
  eexists. split; [reflexivity|]. cbn [original_text extracted_location coords success mock].
  set (c := Auth.or_else (get mockCoordinates s) (get mockCoordinates "New York, NY")).
  assert (Hc : (∃ la ln, c = Own (la, ln)) ∨ (c = Inherited s ∧ In s prototype_keys)).
  { unfold c, get.
    destruct (own_property mockCoordinates s) as [[la ln]|]; [left; eauto|].
    destruct (existsb (String.eqb s) prototype_keys) eqn:Hproto.
    - right. split; [reflexivity|].
      apply existsb_exists in Hproto as (k & Hk & Heq).
      apply String.eqb_eq in Heq. now subst.
    - left. do 2 eexists. vm_compute. reflexivity. }
  destruct Hc as [(la & ln & ->)|[-> Hin]]; cbn;
    repeat split; try reflexivity; try (intros; discriminate).
  intros _. exact Hin.
Qed.

(** X8: the fallback never throws (the group of every pattern is closed
    whenever the pattern matches) and its answer always echoes the text,
    uses the extracted location as formatted address, and is tagged as mock.
    Coordinates are missing only when the extracted location is the name of
    a member of [Object.prototype]. *)
Theorem fallback_always_answers (txt : string) :
  ∃ g, mockLocationExtraction txt = Ret g
       ∧ original_text g = txt
       ∧ formatted_address (coords g) = extracted_location g
       ∧ service (coords g) = "mock"
       ∧ success g = true ∧ mock g = true
       ∧ (lat (coords g) = None ↔ lng (coords g) = None)
       ∧ (lat (coords g) = None → In (extracted_location g) prototype_keys).
Proof. apply fallback_shape. Qed.

(** *** The extracted location is part of the text *)

Lemma strip_literal_rest (ci : bool) (lit : list ascii) :
  ∀ s rest, strip_literal ci lit s = Some rest → ∃ pre, s = (pre ++ rest)%list.
Proof.
  induction lit as [|a lit IH]; intros s rest; simpl.
  - intros [= ->]. now exists [].
  - destruct s as [|b s]; [discriminate|].
    destruct (char_eq ci a b); [|discriminate].
    intros H. apply IH in H as [pre ->]. now exists (b :: pre).
Qed.

Lemma repeat_greedy_rest (ok : ascii → bool) (s : list ascii) :
  ∀ (min : nat) (k : list ascii → option state) (z : state),
    repeat_greedy ok min s k = Some z →
    ∃ rest pre, k rest = Some z ∧ s = (pre ++ rest)%list.
Proof.
  induction s as [|c s IH]; intros min k z; simpl.
  - destruct (min =? 0)%nat; [|discriminate]. intros H. now exists [], [].
  - assert (Hstop : k (c :: s) = Some z →
                    ∃ rest pre, k rest = Some z ∧ c :: s = (pre ++ rest)%list).
    { intros H. now exists (c :: s), []. }
    destruct (ok c).
    + destruct (repeat_greedy ok (Nat.pred min) s k) eqn:E.
      * intros [= ->]. apply IH in E as (rest & pre & Hk & ->).
        now exists rest, (c :: pre).
      * destruct (min =? 0)%nat; [exact Hstop | discriminate].
    + destruct (min =? 0)%nat; [exact Hstop | discriminate].
Qed.

(** Every state handed on is a later position of the same input, and what
    has been captured is a piece of the text. *)
Lemma run_pieces (whole : list ascii) (ci : bool) (r : regex) :
  ∀ (x : state) (k : state → option state) (z : state),
    (∃ b, whole = (b ++ fst x)%list) →
    captured_in whole (snd x) →
    run ci r x k = Some z →
    ∃ y, k y = Some z
         ∧ (∃ pre, fst x = (pre ++ fst y)%list)
         ∧ captured_in whole (snd y).
Proof.
  induction r as [s|cs|min cs|cs|r1 IH1 r2 IH2|r' IH]; intros x k z Hx Hc; simpl.
  - destruct (strip_literal ci _ (fst x)) as [rest|] eqn:E; [|discriminate].
    apply strip_literal_rest in E as [pre E].
    intros H. exists (rest, snd x). eauto.
  - destruct (fst x) as [|c rest] eqn:E; [discriminate|].
    destruct (class_has ci cs c); [|discriminate].
    intros H. exists (rest, snd x). repeat split; [exact H | now exists [c] | exact Hc].
  - intros H. apply repeat_greedy_rest in H as (rest & pre & H & E).
    exists (rest, snd x). eauto.
  - assert (Hstay : k x = Some z →
                    ∃ y, k y = Some z ∧ (∃ pre, fst x = (pre ++ fst y)%list)
                         ∧ captured_in whole (snd y)).
    { intros H. exists x. repeat split; [exact H | now exists [] | exact Hc]. }
    destruct (fst x) as [|c rest] eqn:E; [exact Hstay|].
    destruct (class_has ci cs c); [|exact Hstay].
    destruct (k (rest, snd x)) eqn:Ek; [|exact Hstay].
    intros [= ->]. exists (rest, snd x).
    repeat split; [exact Ek | now exists [c] | exact Hc].
  - intros H. apply IH1 in H as (y1 & H & [pre1 E1] & Hc1); [|exact Hx|exact Hc].
    apply IH2 in H as (y2 & H & [pre2 E2] & Hc2); [| |exact Hc1].
    + exists y2. repeat split; [exact H| |exact Hc2].
      exists (pre1 ++ pre2)%list. rewrite E1, E2. now rewrite <- app_assoc.
    + destruct Hx as [b ->]. exists (b ++ pre1)%list. rewrite E1. now rewrite <- app_assoc.
  - intros H. apply IH in H as (y & H & [pre E] & _); [|exact Hx|exact Hc].
    eexists. split; [exact H|]. cbn [fst snd]. split; [now exists pre|].
    intros cap [= <-]. destruct Hx as [b ->].
    exists b, (fst y). rewrite E.
    rewrite length_app, Nat.add_sub, firstn_app, firstn_all, Nat.sub_diag.
    simpl. now rewrite app_nil_r.
Qed.

Lemma search_piece (whole : list ascii) (p : pattern) (s : list ascii) (y : state) :
  (∃ b, whole = (b ++ s)%list) → search p s = Some y → captured_in whole (snd y).
Proof.
  revert y. induction s as [|c s IH]; intros y Hs; simpl.
  - destruct (run _ _ _ _) eqn:E; [|discriminate]. intros [= ->].
    apply (run_pieces whole) in E as (y' & [= ->] & _ & Hy); [exact Hy|exact Hs|].
    intros cap Hcap. discriminate.
  - destruct (run _ _ _ _) eqn:E.
    + intros [= ->].
      apply (run_pieces whole) in E as (y' & [= ->] & _ & Hy); [exact Hy|exact Hs|].
      intros cap Hcap. discriminate.
    + apply IH. destruct Hs as [b ->]. exists (b ++ [c])%list.
      now rewrite <- app_assoc.
Qed.

Lemma trim_start_rest (l : list ascii) : ∃ pre, l = (pre ++ trim_start l)%list.
Proof.
  induction l as [|c l [pre IH]]; simpl; [now exists []|].
  destruct (is_space c); [|now exists []].
  exists (c :: pre). simpl. now f_equal.
Qed.

Lemma trim_piece (l : list ascii) :
  piece_of (rev (trim_start (rev (trim_start l)))) l.
Proof.
  destruct (trim_start_rest l) as [pre Hl].
  destruct (trim_start_rest (rev (trim_start l))) as [post Hr].
  exists pre, (rev post).
  rewrite Hl at 1. f_equal.
  rewrite <- (rev_involutive (trim_start l)) at 1.
  rewrite Hr at 1. now rewrite rev_app_distr.
Qed.

Lemma piece_of_trans (a b c : list ascii) : piece_of a b → piece_of b c → piece_of a c.
Proof.
  intros (b1 & a1 & ->) (b2 & a2 & ->).
  exists (b2 ++ b1)%list, (a1 ++ a2)%list. now rewrite <- !app_assoc.
Qed.

Lemma prefix_append (p rest : string) : String.prefix p (p ++ rest) = true.
Proof.
  induction p as [|c p IH].
  - destruct rest; reflexivity.
  - change (String.prefix (String c p) (String c (p ++ rest)) = true).
    cbn [String.prefix]. destruct (ascii_dec c c); [exact IH | contradiction].
Qed.

Lemma string_of_list_ascii_app (a b : list ascii) :
  string_of_list_ascii (a ++ b) = string_of_list_ascii a ++ string_of_list_ascii b.
Proof.
  induction a as [|c a IH]; [reflexivity|].
  change (String c (string_of_list_ascii (a ++ b))
          = String c (string_of_list_ascii a ++ string_of_list_ascii b)).
  now rewrite IH.
Qed.

Lemma includes_prefix (s p : string) : String.prefix p s = true → includes s p = true.
Proof.
  intros H. destruct s as [|c s].
  - change (String.prefix p EmptyString || false = true). now rewrite H.
  - change (String.prefix p (String c s) || includes s p = true). now rewrite H.
Qed.

Lemma includes_piece (part whole : list ascii) :
  piece_of part whole →
  includes (string_of_list_ascii whole) (string_of_list_ascii part) = true.
Proof.
  intros (before & after & ->).
  induction before as [|c before IH].
  - apply includes_prefix. cbn [app]. rewrite string_of_list_ascii_app.
    apply prefix_append.
  - set (tl := string_of_list_ascii (before ++ part ++ after)) in *.
    change (String.prefix (string_of_list_ascii part) (String c tl)
            || includes tl (string_of_list_ascii part) = true).
    rewrite IH. apply orb_true_r.
Qed.

(** X9: the fallback invents no place: the location it extracts is the
    default, New York, NY, or occurs literally in the text. *)
Theorem fallback_location_from_text (txt : string) :
  ∃ g, mockLocationExtraction txt = Ret g
       ∧ (extracted_location g = "New York, NY"
          ∨ includes txt (extracted_location g) = true).
Proof.
  unfold mockLocationExtraction.
  assert (Hloc : ∀ ps, Forall (fun p => captures (body p) = true) ps →
            ∃ s, first_location ps txt "New York, NY" = Ret s
                 ∧ (s = "New York, NY" ∨ includes txt s = true)).
  { induction 1 as [|p ps Hp _ IH]; simpl; [eauto|].
    pose proof (RegexProps.match_group1_defined p txt Hp) as Hdef.
    unfold match_group1 in *.
    destruct (search p (list_ascii_of_string txt)) as [y|] eqn:E; [|exact IH].
    destruct (snd y) as [cap|] eqn:Ecap; [|contradiction].
    simpl. eexists. split; [reflexivity|]. right.
    apply (search_piece (list_ascii_of_string txt)) in E; [|now exists []].
    specialize (E cap Ecap).
    rewrite <- (string_of_list_ascii_of_string txt) at 1.
    unfold trim. apply includes_piece.
    rewrite list_ascii_of_string_of_list_ascii.
    eapply piece_of_trans; [apply trim_piece | exact E]. }
  destruct (Hloc locationPatterns) as (s & -> & Hs); [repeat constructor|].
  eexists. split; [reflexivity|]. exact Hs.
Qed.

End FallbackProps.

(* ===================================================================== *)
(** ** More on the providers and the routes *)
(* ===================================================================== *)

Module ProviderProps.
Import JsString Cache CacheProps RouteProps RouteTerms.

Lemma http_of_provider_events (w w' : world) :
  provider_events w' = provider_events w → http_requests w' = http_requests w.
Proof.
  unfold provider_events, http_requests. intros H.
  assert (Hsub : ∀ l, List.filter is_http l
                      = List.filter is_http (List.filter is_provider_event l)).
  { induction l as [|ev l IH]; simpl; [reflexivity|].
    destruct ev; simpl; rewrite <- ?IH; reflexivity. }
  rewrite (Hsub (trace w')), (Hsub (trace w)), H. reflexivity.
Qed.

(** X10: one call of [geocodeLocation] sends exactly one request, to the
    first configured service (Google Maps, else Mapbox, else Nominatim);
    when that request fails no other service is tried, and a result names
    the service it came from. *)
Theorem one_geocoder_per_call (e : env) (locationName : string) (w : world) :
  trace (snd (Geocoding.geocodeLocation e locationName w))
    = Http (selected_service e) :: Invoke "geocodeLocation" locationName :: trace w
  ∧ ∀ c, fst (Geocoding.geocodeLocation e locationName w) = Ret c →
         service c = selected_service e.
Proof.
  unfold Geocoding.geocodeLocation, Geocoding.geocodeWithGoogleMaps,
    Geocoding.geocodeWithMapbox, Geocoding.geocodeWithNominatim, selected_service,
    bind, emit, lift, throw, ret.
  crunch; (split; [reflexivity|]); intros c' Hc; try discriminate Hc;
    injection Hc as <-; reflexivity.
Qed.

Lemma remove_quotes_clean (s : string) (c : ascii) :
  In c (list_ascii_of_string (Geocoding.remove_quotes s)) →
  code c ≠ 39%nat ∧ code c ≠ 34%nat.
Proof.
  induction s as [|a s IH]; [intros []|].
  change (Geocoding.remove_quotes (String a s))
    with (if (code a =? 39)%nat || (code a =? 34)%nat
          then Geocoding.remove_quotes s
          else String a (Geocoding.remove_quotes s)).
  destruct ((code a =? 39)%nat || (code a =? 34)%nat) eqn:E; [exact IH|].
  apply orb_false_iff in E as [E1 E2].
  apply Nat.eqb_neq in E1. apply Nat.eqb_neq in E2.
  intros [<-|Hin]; [split; assumption | now apply IH].
Qed.

(** X11: a location name returned by [extractLocationWithGemini] contains
    no quotation mark of either kind and does not say, in any case, that
    the location is not specified; one request went to the provider. *)
Theorem extracted_name_is_clean (e : env) (txt : string) (w w' : world) (name : string) :
  Geocoding.extractLocationWithGemini e txt w = (Ret name, w') →
  (∀ c, In c (list_ascii_of_string name) → code c ≠ 39%nat ∧ code c ≠ 34%nat)
  ∧ includes (toLowerCase name) "not specified" = false
  ∧ trace w' = Http "gemini" :: Invoke "extractLocationWithGemini" txt :: trace w.
Proof.
  unfold Geocoding.extractLocationWithGemini, bind, emit, lift, throw, ret.
  destruct (negb (truthy (GEMINI_API_KEY e))); [discriminate|].
  destruct (gemini_location e txt) as [generated|m]; [|discriminate].
  destruct (negb (truthy generated)); [discriminate|].
  destruct (includes _ "not specified") eqn:E; [discriminate|].
  intros H. injection H as <- <-.
  split; [|split; [exact E | reflexivity]].
  intros c. apply remove_quotes_clean.
Qed.

Lemma extracted_name_is_clean_witness :
  (∀ c, In c (list_ascii_of_string "Manhattan, NYC") → code c ≠ 39%nat ∧ code c ≠ 34%nat)
  ∧ includes (toLowerCase "Manhattan, NYC") "not specified" = false
  ∧ trace (snd (Geocoding.extractLocationWithGemini online_env manhattan_text (fresh_world 0)))
    = Http "gemini" :: Invoke "extractLocationWithGemini" manhattan_text
        :: trace (fresh_world 0).
Proof.
  apply (extracted_name_is_clean online_env manhattan_text (fresh_world 0)
           (snd (Geocoding.extractLocationWithGemini online_env manhattan_text
                   (fresh_world 0)))
           "Manhattan, NYC").
  reflexivity.
Defined.

(** X12: the inner resolution of the geocoding route always produces a
    value that echoes the input and says where its coordinates come from:
    it is flagged mock with service mock when the fallback produced it, and
    otherwise carries the name of the selected geocoding service. *)
Theorem location_result_is_tagged (e : env) (txt : string) (w : world) :
  ∃ g w', Geocoding.resolve_location e txt w = (Ret g, w')
          ∧ original_text g = txt
          ∧ success g = true
          ∧ ((mock g = true ∧ service (coords g) = "mock")
             ∨ (mock g = false ∧ service (coords g) = selected_service e)).
Proof.
  destruct (FallbackProps.fallback_shape txt)
    as (g0 & Hg0 & Htext & _ & Hservice & Hsucc & Hmock & _).
  unfold Geocoding.resolve_location, Geocoding.extractLocationWithGemini,
    Geocoding.geocodeLocation, Geocoding.geocodeWithGoogleMaps,
    Geocoding.geocodeWithMapbox, Geocoding.geocodeWithNominatim, selected_service,
    try_catch, bind, emit, lift, throw, ret.
  rewrite Hg0.
  crunch; do 2 eexists; (split; [reflexivity|]); simpl;
    first [ now (split; [exact Htext|]; split; [exact Hsucc|]; left)
          | now (split; [reflexivity|]; split; [reflexivity|]; right) ].
Qed.

(** *** Without a key for the text provider *)

Lemma miss_branch_no_key (e : env) (req : resolution_request) (input : string) (w : world) :
  truthy (GEMINI_API_KEY e) = false →
  http_requests (snd (miss_branch e req input w)) = http_requests w.
Proof.
  intros Hkey. destruct req as [g|v]; unfold miss_branch.
  - unfold Geocoding.on_miss, bind.
    destruct (FallbackProps.fallback_shape input) as (g0 & Hg0 & _).
    rewrite (resolve_location_unconfigured e input g0 w Hkey Hg0).
    match goal with
    | |- context [setCache ?k ?p ?t ?x] =>
        destruct (setCache_total k p t x) as (w1 & -> & (_ & _ & _ & _ & Hp) & _)
    end.
    simpl. now rewrite (http_of_provider_events _ _ Hp).
  - unfold Verification.on_miss, Verification.verify_or_mock,
      Verification.verifyImageWithGemini, Verification.mockImageVerification,
      try_catch, bind, emit, lift, throw, ret, now, random.
    rewrite Hkey. simpl.
    destruct (disasters_single e (Verification.id v)) as [[[d|] [err|]]|m]; simpl;
      try reflexivity.
    destruct (truthy (Verification.report_id v)); simpl.
    + destruct (reports_update e _ _) as [err|m]; simpl; [|reflexivity].
      match goal with
      | |- context [setCache ?k ?p ?t ?x] =>
          destruct (setCache_total k p t x) as (w1 & -> & (_ & _ & _ & _ & Hp) & _)
      end.
      simpl. now rewrite (http_of_provider_events _ _ Hp).
    + match goal with
      | |- context [setCache ?k ?p ?t ?x] =>
          destruct (setCache_total k p t x) as (w1 & -> & (_ & _ & _ & _ & Hp) & _)
      end.
      simpl. now rewrite (http_of_provider_events _ _ Hp).
Qed.

(** X13: while no key for the text provider is configured, neither route
    ever sends a request to an external service, whatever the request, the
    other keys and the state of the cache: the geocoders are out of reach
    behind the failed extraction. *)
Theorem no_key_no_outbound_request (e : env) (req : resolution_request) (w : world) :
  truthy (GEMINI_API_KEY e) = false →
  http_requests (snd (resolve e req w)) = http_requests w.
Proof.
  intros Hkey.
  destruct (request_input req) as [input|] eqn:Hin.
  - rewrite (resolve_valid e req input w Hin). unfold try_catch, bind, ret.
    destruct (getFromCache_total (derived_key req input) w)
      as (o & wa & -> & (_ & _ & _ & _ & Hp) & _).
    apply http_of_provider_events in Hp.
    destruct o as [cached|]; [exact Hp|].
    pose proof (miss_branch_no_key e req input wa Hkey) as Hmiss.
    destruct (miss_branch e req input wa) as [[r|m] w1]; simpl in *; congruence.
  - now rewrite (resolve_invalid e req w Hin).
Qed.

Lemma no_key_no_outbound_request_witness :
  http_requests (snd (resolve offline_env image_request (fresh_world 0)))
    = http_requests (fresh_world 0).
Proof.
  apply (no_key_no_outbound_request offline_env image_request (fresh_world 0)).
  reflexivity.
Defined.

(** *** Statuses *)

(** X14: when the provider's answer holds no JSON that parses, the status
    is fake if the text contains the word fake in any case, and verified
    otherwise; such an answer is never classified suspicious. *)
Theorem free_text_status (generatedText : string) (t : Z) :
  status (Verification.gemini_result (Verification.text_analysis generatedText) t)
    = (if includes (toLowerCase generatedText) "fake" then "fake" else "verified")
  ∧ status (Verification.gemini_result (Verification.text_analysis generatedText) t)
    ≠ "suspicious".
Proof.
  unfold Verification.gemini_result, Verification.text_analysis.
  cbn [status a_authenticity_score].
  destruct (includes (toLowerCase generatedText) "fake");
    (split; [vm_compute; reflexivity | vm_compute; discriminate]).
Qed.

Lemma provider_status_cases (score : option Q) :
  Verification.provider_status score = "verified"
  ∨ Verification.provider_status score = "suspicious"
  ∨ Verification.provider_status score = "fake".
Proof.
  unfold Verification.provider_status.
  destruct (Verification.exceeds score 70); [now left|].
  destruct (Verification.exceeds score 40); [right; now left | right; now right].
Qed.

(** X15: every fresh verification result, from the provider or from the
    fallback, carries one of the four statuses the reports table accepts;
    the provider never answers pending and the fallback never answers
    fake. *)
Theorem fresh_status_is_storable (e : env) (url : string) (d : disaster) (w : world) :
  ∃ v w', Verification.verify_or_mock e url d w = (Ret v, w')
          ∧ In (status v) report_statuses
          ∧ ((verification_method v = "gemini_api" ∧ status v ≠ "pending")
             ∨ (verification_method v = "mock_analysis" ∧ status v ≠ "fake")).
Proof.
  assert (Hprov : ∀ a t,
            In (status (Verification.gemini_result a t)) report_statuses
            ∧ status (Verification.gemini_result a t) ≠ "pending").
  { intros a t. unfold Verification.gemini_result. cbn [status].
    destruct (provider_status_cases (a_authenticity_score a)) as [-> | [-> | ->]];
      (split; [simpl; tauto | discriminate]). }
  assert (Hmock : ∀ u t,
            In (status (Verification.mock_result u t url d)) report_statuses
            ∧ status (Verification.mock_result u t url d) ≠ "fake").
  { intros u t. unfold Verification.mock_result. cbn [status].
    destruct (existsb _ Verification.suspiciousPatterns);
      [|destruct (80 <? _)%Z]; (split; [simpl; tauto | discriminate]). }
  unfold Verification.verify_or_mock, Verification.verifyImageWithGemini,
    Verification.mockImageVerification, try_catch, bind, emit, lift, throw,
    ret, now, random.
  crunch; do 2 eexists; (split; [reflexivity|]);
    first [ now (split; [apply Hprov | left; split; [reflexivity | apply Hprov]])
          | now (split; [apply Hmock | right; split; [reflexivity | apply Hmock]]) ].
Qed.

(** *** A disaster the database does not yield *)

(** X16: when the lookup of the disaster does not yield a row, the
    verification route stops there: no provider function is entered, no
    random number is drawn and nothing new is written to the cache. *)
Theorem unknown_disaster_stops_early (e : env) (req : Verification.request) (w : world) :
  (∀ d, disasters_single e (Verification.id req) ≠ Ret (Some d, None)) →
  provider_events (snd (Verification.route e req w)) = provider_events w
  ∧ random_calls (snd (Verification.route e req w)) = random_calls w
  ∧ ∀ key row, cache_table (snd (Verification.route e req w)) !! key = Some row →
               cache_table w !! key = Some row.
Proof.
  intros Hnone.
  change (Verification.route e req) with (resolve e (VerifyImageRequest req)).
  destruct (request_input (VerifyImageRequest req)) as [input|] eqn:Hin.
  - rewrite (resolve_valid e _ input w Hin). unfold try_catch, bind, ret.
    destruct (getFromCache_total (derived_key (VerifyImageRequest req) input) w)
      as (o & wa & -> & (_ & _ & _ & Hr & Hp) & Ht).
    assert (Hkeep : ∀ key row, cache_table wa !! key = Some row →
                               cache_table w !! key = Some row).
    { intros key row. destruct Ht as [->| ->]; [auto|].
      intros H. apply lookup_delete_Some in H. tauto. }
    destruct o as [cached|]; [now repeat split|].
    unfold miss_branch, Verification.on_miss, bind, emit, lift, throw, ret. simpl.
    destruct (disasters_single e (Verification.id req)) as [[[d|] [err|]]|m] eqn:Hd;
      simpl; try (now repeat split).
    exfalso. now apply (Hnone d).
  - rewrite (resolve_invalid e _ w Hin). now repeat split.
Qed.

Lemma unknown_disaster_stops_early_witness :
  provider_events (snd (Verification.route unknown_disaster_env
      {| Verification.id := "d1"; Verification.image_url := Some "https://example.org/flood.jpg";
         Verification.report_id := None |} (fresh_world 0)))
    = provider_events (fresh_world 0)
  ∧ random_calls (snd (Verification.route unknown_disaster_env
      {| Verification.id := "d1"; Verification.image_url := Some "https://example.org/flood.jpg";
         Verification.report_id := None |} (fresh_world 0)))
    = random_calls (fresh_world 0)
  ∧ ∀ key row, cache_table (snd (Verification.route unknown_disaster_env
      {| Verification.id := "d1"; Verification.image_url := Some "https://example.org/flood.jpg";
         Verification.report_id := None |} (fresh_world 0))) !! key = Some row →
               cache_table (fresh_world 0) !! key = Some row.
Proof.
  apply (unknown_disaster_stops_early unknown_disaster_env
           {| Verification.id := "d1";
              Verification.image_url := Some "https://example.org/flood.jpg";
              Verification.report_id := None |} (fresh_world 0)).
  intros d. discriminate.
Defined.

End ProviderProps.

(* ===================================================================== *)
(** ** More on the relevance score *)
(* ===================================================================== *)

Module ScoreProps.
Import JsString SocialMedia SocialMediaProps.

Lemma max0_nonneg (x : Q) : (0 <= max0 x)%Q.
Proof.
  unfold max0. destruct (Qle_bool 0 x) eqn:E; [now apply Qle_bool_iff | lra].
Qed.

Lemma max0_mono (x y : Q) : (x <= y)%Q → (max0 x <= max0 y)%Q.
Proof.
  intros H. unfold max0.
  destruct (Qle_bool 0 x) eqn:Ex; destruct (Qle_bool 0 y) eqn:Ey;
    try apply Qle_bool_iff in Ex; try apply Qle_bool_iff in Ey; try lra.
  - exfalso. assert (Hy : (0 <= y)%Q) by lra. apply Qle_bool_iff in Hy. congruence.
Qed.

Lemma max0_of_nonpos (x : Q) : (x <= 0)%Q → (max0 x == 0)%Q.
Proof.
  intros H. unfold max0. destruct (Qle_bool 0 x) eqn:E; [|reflexivity].
  apply Qle_bool_iff in E. lra.
Qed.

Lemma max0_below (x c : Q) : (x <= c)%Q → (0 <= c)%Q → (max0 x <= c)%Q.
Proof.
  intros Hx Hc. unfold max0. destruct (Qle_bool 0 x); assumption.
Qed.

(** Age in hours, as the scorer computes it. *)
Lemma hours_nonneg (n : Z) : (0 <= n)%Z → (0 <= inject_Z n / inject_Z (1000 * 60 * 60))%Q.
Proof.
  intros H. apply Qle_shift_div_l; [reflexivity|].
  rewrite Qmult_0_l. change 0%Q with (inject_Z 0). now rewrite <- Zle_Qle.
Qed.

Lemma hours_mono (n m : Z) :
  (n <= m)%Z →
  (inject_Z n / inject_Z (1000 * 60 * 60) <= inject_Z m / inject_Z (1000 * 60 * 60))%Q.
Proof.
  intros H. unfold Qdiv. apply Qmult_le_compat_r; [now rewrite <- Zle_Qle | discriminate].
Qed.

Lemma hours_at_least_five (n : Z) :
  (5 * (1000 * 60 * 60) <= n)%Z → (5 <= inject_Z n / inject_Z (1000 * 60 * 60))%Q.
Proof.
  intros H. apply Qle_shift_div_l; [reflexivity|].
  change (5 * inject_Z (1000 * 60 * 60))%Q with (inject_Z (5 * (1000 * 60 * 60))).
  now rewrite <- Zle_Qle.
Qed.

Section Bounds.
Variable hit : string → bool.
Variable points : Z.
Hypothesis points_nonneg : (0 <= points)%Z.

Lemma fold_between (l : list string) (init : Z) :
  (init
   <= fold_left (fun score x => if hit x then (score + points)%Z else score) l init
   <= init + points * Z.of_nat (length l))%Z.
Proof.
  revert init. induction l as [|a l IH]; intros init; simpl; [lia|].
  destruct (hit a).
  - specialize (IH (init + points)%Z). lia.
  - specialize (IH init). lia.
Qed.

Lemma fold_shift (l : list string) (init k : Z) :
  fold_left (fun score x => if hit x then (score + points)%Z else score) l (init + k)%Z
    = (fold_left (fun score x => if hit x then (score + points)%Z else score) l init
       + k)%Z.
Proof.
  revert init. induction l as [|a l IH]; intros init; simpl; [reflexivity|].
  destruct (hit a); [|apply IH].
  replace (init + k + points)%Z with (init + points + k)%Z by lia. apply IH.
Qed.
End Bounds.

(** X17: for a post that is not dated in the future, the score is at
    least the weight of its priority and at most that weight plus 5 for
    every tag of the disaster, 3 for every token of its location name, and
    5 for recency. *)
Theorem score_bounds (timeNow : Z) (p : post) (d : disaster) :
  (post_timestamp p <= timeNow)%Z →
  (inject_Z (priorityScores (post_priority p)) <= calculateRelevanceScore timeNow p d)%Q
  ∧ (calculateRelevanceScore timeNow p d
     <= inject_Z (priorityScores (post_priority p)
                  + 5 * Z.of_nat (length (tags d))
                  + 3 * Z.of_nat (length (location_tokens d))) + 5)%Q.
Proof.
  intros Hpast.
  destruct (score_split timeNow p d) as (base & -> & Hbase).
  pose proof (fold_between (mentions_tag p) 5 ltac:(lia) (tags d)
                (0 + priorityScores (post_priority p))) as Htags.
  pose proof (fold_between (mentions_token p) 3 ltac:(lia) (location_tokens d)
                (fold_left (fun score tag => if mentions_tag p tag then (score + 5)%Z else score)
                   (tags d) (0 + priorityScores (post_priority p))%Z)) as Htokens.
  rewrite <- Hbase in Htokens.
  pose proof (max0_nonneg
    (5 - inject_Z (timeNow - post_timestamp p) / inject_Z (1000 * 60 * 60))) as Hlow.
  assert (Hhigh : (max0 (5 - inject_Z (timeNow - post_timestamp p)
                           / inject_Z (1000 * 60 * 60)) <= 5)%Q).
  { apply max0_below; [|lra].
    pose proof (hours_nonneg (timeNow - post_timestamp p) ltac:(lia)). lra. }
  split.
  - assert (H : (inject_Z (priorityScores (post_priority p)) <= inject_Z base)%Q)
      by (rewrite <- Zle_Qle; lia).
    lra.
  - assert (H : (inject_Z base
                 <= inject_Z (priorityScores (post_priority p)
                              + 5 * Z.of_nat (length (tags d))
                              + 3 * Z.of_nat (length (location_tokens d))))%Q)
      by (rewrite <- Zle_Qle; lia).
    lra.
Qed.

Lemma score_bounds_witness :
  (inject_Z (priorityScores urgent)
   <= calculateRelevanceScore 7200000
        {| post_text := "URGENT: flood water rising in Manhattan NYC";
           post_priority := urgent; keywords := ["help"]; post_timestamp := 3600000 |}
        sample_disaster)%Q
  ∧ (calculateRelevanceScore 7200000
        {| post_text := "URGENT: flood water rising in Manhattan NYC";
           post_priority := urgent; keywords := ["help"]; post_timestamp := 3600000 |}
        sample_disaster
     <= inject_Z (priorityScores urgent
                  + 5 * Z.of_nat (length (tags sample_disaster))
                  + 3 * Z.of_nat (length (location_tokens sample_disaster))) + 5)%Q.
Proof.
  apply (score_bounds 7200000
           {| post_text := "URGENT: flood water rising in Manhattan NYC";
              post_priority := urgent; keywords := ["help"]; post_timestamp := 3600000 |}
           sample_disaster).
  simpl. lia.
Defined.

Lemma score_by_priority (timeNow ts : Z) (body : string) (ks : list string)
    (d : disaster) (pr : priority) :
  ∃ rest : Q,
    ∀ pr', calculateRelevanceScore timeNow
             {| post_text := body; post_priority := pr'; keywords := ks;
                post_timestamp := ts |} d
           = (inject_Z
                (fold_left
                   (fun score token =>
                      if includes (toLowerCase body) token then (score + 3)%Z else score)
                   (location_tokens d)
                   (fold_left
                      (fun score tag =>
                         if includes (toLowerCase body) (toLowerCase tag)
                         then (score + 5)%Z else score)
                      (tags d) 0%Z)
                 + priorityScores pr') + rest)%Q.
Proof.
  exists (max0 (5 - inject_Z (timeNow - ts) / inject_Z (1000 * 60 * 60))).
  intros pr'.
  destruct (score_split timeNow
              {| post_text := body; post_priority := pr'; keywords := ks;
                 post_timestamp := ts |} d) as (base & -> & ->).
  cbn [post_priority post_timestamp post_text].
  unfold mentions_token, mentions_tag. cbn [post_text].
  rewrite (fold_shift (fun tag => includes (toLowerCase body) (toLowerCase tag)) 5).
  rewrite (fold_shift (fun token => includes (toLowerCase body) token) 3).
  reflexivity.
Qed.

(** X18: between posts that differ only in priority the score follows the
    priority: low is below medium, medium below high, high below urgent. *)
Theorem score_follows_priority (timeNow ts : Z) (body : string) (ks : list string)
    (d : disaster) :
  let scored pr :=
    calculateRelevanceScore timeNow
      {| post_text := body; post_priority := pr; keywords := ks; post_timestamp := ts |} d in
  (scored low < scored medium)%Q
  ∧ (scored medium < scored high)%Q
  ∧ (scored high < scored urgent)%Q.
Proof.
  intros scored. subst scored. cbv beta.
  destruct (score_by_priority timeNow ts body ks d low) as (rest & Hscore).
  rewrite !Hscore.
  repeat split; apply Qplus_lt_l; rewrite <- Zlt_Qlt; simpl; lia.
Qed.

Lemma score_by_timestamp (timeNow : Z) (body : string) (pr : priority)
    (ks : list string) (d : disaster) :
  ∃ base : Z,
    ∀ ts, calculateRelevanceScore timeNow
            {| post_text := body; post_priority := pr; keywords := ks;
               post_timestamp := ts |} d
          = (inject_Z base
             + max0 (5 - inject_Z (timeNow - ts) / inject_Z (1000 * 60 * 60)))%Q.
Proof.
  exists (fold_left
            (fun score token =>
               if includes (toLowerCase body) token then (score + 3)%Z else score)
            (location_tokens d)
            (fold_left
               (fun score tag =>
                  if includes (toLowerCase body) (toLowerCase tag)
                  then (score + 5)%Z else score)
               (tags d) (0 + priorityScores pr)%Z)).
  intros ts.
  destruct (score_split timeNow
              {| post_text := body; post_priority := pr; keywords := ks;
                 post_timestamp := ts |} d) as (base & -> & ->).
  reflexivity.
Qed.

(** X19: between posts that differ only in their time stamp the newer one
    never scores lower, and once both are five hours old or more the time
    stamp no longer matters: their scores are equal. *)
Theorem newer_never_scores_lower (timeNow ts1 ts2 : Z) (body : string) (pr : priority)
    (ks : list string) (d : disaster) :
  (ts1 <= ts2)%Z →
  let scored ts :=
    calculateRelevanceScore timeNow
      {| post_text := body; post_priority := pr; keywords := ks; post_timestamp := ts |} d in
  (scored ts1 <= scored ts2)%Q
  ∧ ((ts2 <= timeNow - 5 * (1000 * 60 * 60))%Z → (scored ts1 == scored ts2)%Q).
Proof.
  intros Hle scored. subst scored. cbv beta.
  destruct (score_by_timestamp timeNow body pr ks d) as (base & Hscore).
  rewrite !Hscore. split.
  - apply Qplus_le_r. apply max0_mono.
    pose proof (hours_mono (timeNow - ts2) (timeNow - ts1) ltac:(lia)). lra.
  - intros Hold.
    rewrite (max0_of_nonpos (5 - inject_Z (timeNow - ts1) / inject_Z (1000 * 60 * 60))).
    + rewrite (max0_of_nonpos (5 - inject_Z (timeNow - ts2) / inject_Z (1000 * 60 * 60)));
        [reflexivity|].
      pose proof (hours_at_least_five (timeNow - ts2) ltac:(lia)). lra.
    + pose proof (hours_at_least_five (timeNow - ts1) ltac:(lia)). lra.
Qed.

Lemma newer_never_scores_lower_witness :
  let scored ts :=
    calculateRelevanceScore 36000000
      {| post_text := "flood"; post_priority := high; keywords := [];
         post_timestamp := ts |} sample_disaster in
  (scored 0%Z <= scored 18000000%Z)%Q
  ∧ ((18000000 <= 36000000 - 5 * (1000 * 60 * 60))%Z → (scored 0%Z == scored 18000000%Z)%Q).
Proof.
  apply (newer_never_scores_lower 36000000 0 18000000 "flood" high [] sample_disaster).
  lia.
Defined.

End ScoreProps.

(* ===================================================================== *)
(** ** More on rooms and on the middleware *)
(* ===================================================================== *)

Module HubProps.
Import Socket SocketProps.

Lemma received_same_deliveries (sid : string) (h h' : hub) :
  delivered h' = delivered h → received sid h' = received sid h.
Proof. unfold received. now intros ->. Qed.

(** X20: once a socket is disconnected, neither a publish to any room nor
    an unscoped emit reaches it, and the memberships of the other sockets
    are as before. *)
Theorem disconnected_socket_gets_nothing (h : hub) (sid other room : string) (m : message) :
  other ≠ sid →
  received sid (io_to_emit room m (on_disconnect sid h)) = received sid h
  ∧ received sid (io_emit m (on_disconnect sid h)) = received sid h
  ∧ joined other room (on_disconnect sid h) = joined other room h.
Proof.
  intros Hne.
  rewrite received_io_to_emit, received_io_emit.
  unfold joined, connected, on_disconnect. cbn [rooms_of].
  rewrite lookup_delete_eq, (lookup_delete_ne _ sid other) by congruence.
  rewrite !app_nil_r. repeat split.
Qed.

Lemma disconnected_socket_gets_nothing_witness :
  received "s1" (io_to_emit (room_name "42")
                   {| event_name := "disaster_updated"; event_data := "{}" |}
                   (on_disconnect "s1" sample_hub))
    = received "s1" sample_hub
  ∧ received "s1" (io_emit {| event_name := "disaster_updated"; event_data := "{}" |}
                     (on_disconnect "s1" sample_hub))
    = received "s1" sample_hub
  ∧ joined "s2" (room_name "42") (on_disconnect "s1" sample_hub)
    = joined "s2" (room_name "42") sample_hub.
Proof.
  apply (disconnected_socket_gets_nothing sample_hub "s1" "s2" (room_name "42")
           {| event_name := "disaster_updated"; event_data := "{}" |}).
  discriminate.
Defined.





(** X22: an unscoped emit, as used for the heartbeat and by the routes,
    is received exactly once by every connected socket and by no other,
    and joining or leaving rooms makes no difference to it. *)
Theorem unscoped_emit_ignores_rooms (h : hub) (sid disasterId : string) (m : message) :
  received sid (io_emit m h)
    = (received sid h ++ (if connected sid h then [m] else []))%list
  ∧ received sid (io_emit m (join_disaster sid disasterId h)) = received sid (io_emit m h)
  ∧ received sid (io_emit m (leave_disaster sid disasterId h)) = received sid (io_emit m h).
Proof.
  rewrite !received_io_emit.
  unfold connected, join_disaster, leave_disaster, socket_join, socket_leave.
  cbn [rooms_of]. rewrite !lookup_alter_eq.
  destruct (rooms_of h !! sid); repeat split.
Qed.

End HubProps.

Module AuthMore.
Import JsString JsObject Auth.

Lemma bearer_is_stripped (token : string) :
  authenticate {| authorization := Some ("Bearer " ++ token) |}
    = Next (or_else (get mockUsers token) (get mockUsers "citizen1")).
Proof.
  unfold authenticate. cbn [authorization].
  change (truthy (Some ("Bearer " ++ token))) with true. cbv iota.
  replace (replace "Bearer " EmptyString ("Bearer " ++ token)) with token; [reflexivity|].
  change ("Bearer " ++ token)
    with (String "B" (String "e" (String "a" (String "r" (String "e" (String "r"
            (String " " token))))))).
  unfold replace; fold replace.
  change (String "B" (String "e" (String "a" (String "r" (String "e" (String "r"
            (String " " token)))))))
    with ("Bearer " ++ token) at 1.
  rewrite FallbackProps.prefix_append. reflexivity.
Qed.

(** X23: with a header made of the word Bearer, a space and a token, the
    middleware assigns a user with role admin exactly when the token is
    netrunnerX or reliefAdmin. *)
Theorem bearer_token_decides_admin (token : string) :
  (∃ usr, authenticate {| authorization := Some ("Bearer " ++ token) |} = Next (Own usr)
          ∧ role usr = "admin")
  ↔ (token = "netrunnerX" ∨ token = "reliefAdmin").
Proof.
  rewrite bearer_is_stripped. unfold get at 1, mockUsers at 1. cbn [own_property].
  destruct (String.eqb_spec "netrunnerX" token) as [<-|H1].
  { split; [now left|]. intros _. eexists. split; reflexivity. }
  destruct (String.eqb_spec "reliefAdmin" token) as [<-|H2].
  { split; [now right|]. intros _. eexists. split; reflexivity. }
  split; [|intros [?|?]; congruence].
  intros (usr & Huser & Hrole). exfalso.
  destruct (String.eqb_spec "citizen1" token) as [<-|H3].
  - injection Huser as <-. discriminate Hrole.
  - destruct (existsb (String.eqb token) prototype_keys); [discriminate Huser|].
    injection Huser as <-. discriminate Hrole.
Qed.

End AuthMore.

(* ===================================================================== *)
(** ** The disaster routes *)
(* ===================================================================== *)

Module DisasterProps.
Import JsString JsObject Disasters DisasterTerms.

Lemma differs_false (a b : option string) :
  differs a b = false ↔ ∃ uid, a = Some uid ∧ b = Some uid.
Proof.
  unfold differs. destruct a as [x|], b as [y|]; split;
    try discriminate; try (intros (uid & ? & ?); discriminate).
  - intros H. apply negb_false_iff, String.eqb_eq in H. subst. eauto.
  - intros (uid & Ha & Hb). injection Ha as ->. injection Hb as ->.
    now rewrite String.eqb_refl.
Qed.

Lemma is_not_admin_false (user : property Auth.user) :
  is_not_admin user = false ↔ role_of user = Some "admin".
Proof.
  unfold is_not_admin. destruct (role_of user) as [r|]; split; try discriminate.
  - intros H. apply negb_false_iff, String.eqb_eq in H. now subst.
  - intros H. injection H as ->. reflexivity.
Qed.

Lemma check_false (user : property Auth.user) (existing : row) :
  differs (owner_id existing) (user_id_of user) && is_not_admin user = false
  ↔ may_change user existing.
Proof.
  rewrite andb_false_iff, differs_false, is_not_admin_false. reflexivity.
Qed.

Lemma check_true (user : property Auth.user) (existing : row) :
  ¬ may_change user existing →
  differs (owner_id existing) (user_id_of user) && is_not_admin user = true.
Proof.
  intros H. destruct (differs _ _ && is_not_admin user) eqn:E; [reflexivity|].
  apply check_false in E. contradiction.
Qed.

Ltac run_db :=
  unfold update, remove, create, dtry, dbind, select_single, update_single,
    insert_single, delete_eq, db_call, read_disasters, write_disasters,
    io_emit, date_now, uuidv4, dret, dthrow, fail; cbn.

(** X24: a requester who neither owns a stored disaster nor is an
    administrator cannot change it: update and delete both answer, leave
    the table as it was and broadcast nothing; the answer is 403 when the
    read of the table succeeds and 500 when it fails. *)
Theorem strangers_cannot_mutate (user : property Auth.user) (id : string) (b : body)
    (s : state) (existing : row) :
  disasters s !! id = Some existing →
  ¬ may_change user existing →
  ∃ code,
    status_of (fst (update user id b s)) = Some code
    ∧ status_of (fst (remove user id s)) = Some code
    ∧ (code = 403 ∨ code = 500)%Z
    ∧ (db_fault s (db_calls s) = Healthy → code = 403%Z)
    ∧ (db_fault s (db_calls s) ≠ Healthy → code = 500%Z)
    ∧ disasters (snd (update user id b s)) = disasters s
    ∧ emitted (snd (update user id b s)) = emitted s
    ∧ disasters (snd (remove user id s)) = disasters s
    ∧ emitted (snd (remove user id s)) = emitted s.
Proof.
  intros Hrow Hno. apply check_true in Hno.
  run_db. destruct (db_fault s (db_calls s)) eqn:Hf; cbn.
  - rewrite Hrow. cbn. rewrite Hno. cbn. exists 403%Z.
    repeat split; auto. intros H. now contradiction H.
  - exists 500%Z. repeat split; auto. discriminate.
  - exists 500%Z. repeat split; auto. discriminate.
Qed.

Lemma strangers_cannot_mutate_witness :
  ∃ code,
    status_of (fst (update (Own bystander) "d1" retitle calm_state)) = Some code
    ∧ status_of (fst (remove (Own bystander) "d1" calm_state)) = Some code
    ∧ (code = 403 ∨ code = 500)%Z
    ∧ (db_fault calm_state (db_calls calm_state) = Healthy → code = 403%Z)
    ∧ (db_fault calm_state (db_calls calm_state) ≠ Healthy → code = 500%Z)
    ∧ disasters (snd (update (Own bystander) "d1" retitle calm_state))
      = disasters calm_state
    ∧ emitted (snd (update (Own bystander) "d1" retitle calm_state))
      = emitted calm_state
    ∧ disasters (snd (remove (Own bystander) "d1" calm_state)) = disasters calm_state
    ∧ emitted (snd (remove (Own bystander) "d1" calm_state)) = emitted calm_state.
Proof.
  apply (strangers_cannot_mutate (Own bystander) "d1" retitle calm_state flood).
  - reflexivity.
  - intros [(uid & Howner & Huser)|Hrole]; [|discriminate Hrole].
    cbn in Howner, Huser. congruence.
Defined.

(** What a handler can do, case by case. *)
Lemma update_cases (user : property Auth.user) (id : string) (b : body) (s : state) :
  (∃ code message,
      fst (update user id b s) = Ret (fail code message)
      ∧ (code = 403 ∨ code = 404 ∨ code = 500)%Z
      ∧ disasters (snd (update user id b s)) = disasters s
      ∧ emitted (snd (update user id b s)) = emitted s)
  ∨ (∃ existing updated,
      disasters s !! id = Some existing
      ∧ may_change user existing
      ∧ updated =
          apply_updates
            {| u_title := when_truthy (title b);
               u_location_name := when_truthy (location_name b);
               u_description := when_truthy (description b);
               u_tags := tags b;
               u_audit_trail :=
                 audit_trail existing
                 ++ [{| action := "update"; user_id := user_id_of user;
                        timestamp := time s; changes := Some b |}] |} existing
      ∧ fst (update user id b s) = Ret {| status := 200; json := Data (Some updated) |}
      ∧ disasters (snd (update user id b s)) = <[id := updated]> (disasters s)
      ∧ emitted (snd (update user id b s))
        = {| b_event := "disaster_updated"; b_action := "update";
             b_disaster := Some updated |} :: emitted s).
Proof.
  run_db. destruct (db_fault s (db_calls s)) eqn:Hf; cbn.
  - destruct (disasters s !! id) as [existing|] eqn:Hrow; cbn.
    + destruct (differs (owner_id existing) (user_id_of user) && is_not_admin user) eqn:Hc;
        cbn.
      * left. exists 403%Z. eexists. repeat split; auto.
      * apply check_false in Hc.
        destruct (db_fault s (S (db_calls s))) eqn:Hf2; cbn.
        -- rewrite Hrow. cbn. right. exists existing. eexists.
           repeat split; auto.
        -- left. exists 500%Z. eexists. repeat split; auto.
        -- left. exists 500%Z. eexists. repeat split; auto.
    + left. exists 500%Z. eexists. repeat split; auto.
  - left. exists 500%Z. eexists. repeat split; auto.
  - left. exists 500%Z. eexists. repeat split; auto.
Qed.

Lemma remove_cases (user : property Auth.user) (id : string) (s : state) :
  (∃ code message,
      fst (remove user id s) = Ret (fail code message)
      ∧ (code = 403 ∨ code = 404 ∨ code = 500)%Z
      ∧ disasters (snd (remove user id s)) = disasters s
      ∧ emitted (snd (remove user id s)) = emitted s)
  ∨ (∃ existing,
      disasters s !! id = Some existing
      ∧ may_change user existing
      ∧ fst (remove user id s)
        = Ret {| status := 200; json := Message "Disaster deleted successfully" |}
      ∧ disasters (snd (remove user id s)) = delete id (disasters s)
      ∧ emitted (snd (remove user id s))
        = {| b_event := "disaster_updated"; b_action := "delete";
             b_disaster := Some existing |} :: emitted s).
Proof.
  run_db. destruct (db_fault s (db_calls s)) eqn:Hf; cbn.
  - destruct (disasters s !! id) as [existing|] eqn:Hrow; cbn.
    + destruct (differs (owner_id existing) (user_id_of user) && is_not_admin user) eqn:Hc;
        cbn.
      * left. exists 403%Z. eexists. repeat split; auto.
      * apply check_false in Hc.
        destruct (db_fault s (S (db_calls s))) eqn:Hf2; cbn.
        -- right. exists existing. repeat split; auto.
        -- left. exists 500%Z. eexists. repeat split; auto.
        -- left. exists 500%Z. eexists. repeat split; auto.
    + left. exists 500%Z. eexists. repeat split; auto.
  - left. exists 500%Z. eexists. repeat split; auto.
  - left. exists 500%Z. eexists. repeat split; auto.
Qed.

Lemma create_cases (user : property Auth.user) (b : body) (s : state) :
  (fst (create user b s) = Ret (fail 400 "Title and description are required")
   ∧ (truthy (title b) = false ∨ truthy (description b) = false)
   ∧ snd (create user b s) = s)
  ∨ (∃ message,
      fst (create user b s) = Ret (fail 500 message)
      ∧ truthy (title b) = true ∧ truthy (description b) = true
      ∧ disasters (snd (create user b s)) = disasters s
      ∧ emitted (snd (create user b s)) = emitted s)
  ∨ (∃ uid t d created,
      user_id_of user = Some uid
      ∧ title b = Some t ∧ description b = Some d
      ∧ truthy (title b) = true ∧ truthy (description b) = true
      ∧ disasters s !! uuids s (uuid_calls s) = None
      ∧ created =
          {| d_id := uuids s (uuid_calls s); d_title := t;
             d_location_name := location_name b; d_description := d;
             d_tags := match tags b with Some l => l | None => [] end;
             owner_id := Some uid; created_at := time s;
             audit_trail := [{| action := "create"; user_id := Some uid;
                                timestamp := time s; changes := None |}] |}
      ∧ fst (create user b s) = Ret {| status := 201; json := Data (Some created) |}
      ∧ disasters (snd (create user b s)) = <[d_id created := created]> (disasters s)
      ∧ emitted (snd (create user b s))
        = {| b_event := "disaster_updated"; b_action := "create";
             b_disaster := Some created |} :: emitted s).
Proof.
  run_db.
  destruct (truthy (title b)) eqn:Ht; cbn; [|left; repeat split; auto].
  destruct (truthy (description b)) eqn:Hd; cbn; [|left; repeat split; auto].
  right.
  destruct (db_fault s (db_calls s)) eqn:Hf; cbn;
    [|left; eexists; repeat split; auto..].
  destruct (user_id_of user) as [uid|] eqn:Hu; cbn;
    [|left; eexists; repeat split; auto].
  destruct (disasters s !! uuids s (uuid_calls s)) eqn:Hrow; cbn;
    [left; eexists; repeat split; auto|].
  right.
  destruct (title b) as [t|]; [|discriminate Ht].
  destruct (description b) as [d|]; [|discriminate Hd].
  exists uid, t, d. eexists. repeat split; auto.
Qed.

(** X25: an update answered with 200 was made by the owner or an
    administrator on a stored disaster; the row keeps its id, owner and
    creation time, its audit trail grows by exactly one entry naming the
    requester and the time, an empty title or description leaves the
    stored one in place, and the new row is what is stored, returned and
    broadcast. *)
Theorem update_keeps_identity (user : property Auth.user) (id : string) (b : body)
    (s : state) :
  status_of (fst (update user id b s)) = Some 200%Z →
  ∃ existing updated,
    disasters s !! id = Some existing
    ∧ may_change user existing
    ∧ fst (update user id b s) = Ret {| status := 200; json := Data (Some updated) |}
    ∧ disasters (snd (update user id b s)) = <[id := updated]> (disasters s)
    ∧ emitted (snd (update user id b s))
      = {| b_event := "disaster_updated"; b_action := "update";
           b_disaster := Some updated |} :: emitted s
    ∧ d_id updated = d_id existing
    ∧ owner_id updated = owner_id existing
    ∧ created_at updated = created_at existing
    ∧ audit_trail updated
      = (audit_trail existing
         ++ [{| action := "update"; user_id := user_id_of user;
                timestamp := time s; changes := Some b |}])%list
    ∧ (truthy (title b) = false → d_title updated = d_title existing)
    ∧ (truthy (description b) = false → d_description updated = d_description existing).
Proof.
  intros Hok.
  destruct (update_cases user id b s)
    as [(code & message & Hr & Hcode & _)
       |(existing & updated & Hrow & Hmay & Hup & Hr & Ht & He)].
  - rewrite Hr in Hok. cbn in Hok. injection Hok as Hok. lia.
  - exists existing, updated. subst updated.
    repeat split; auto; cbn; unfold when_truthy; now intros ->.
Qed.

Lemma update_keeps_identity_witness :
  ∃ existing updated,
    disasters calm_state !! "d1" = Some existing
    ∧ may_change (Own Auth.citizen1) existing
    ∧ fst (update (Own Auth.citizen1) "d1" retitle calm_state)
      = Ret {| status := 200; json := Data (Some updated) |}
    ∧ disasters (snd (update (Own Auth.citizen1) "d1" retitle calm_state))
      = <["d1" := updated]> (disasters calm_state)
    ∧ emitted (snd (update (Own Auth.citizen1) "d1" retitle calm_state))
      = {| b_event := "disaster_updated"; b_action := "update";
           b_disaster := Some updated |} :: emitted calm_state
    ∧ d_id updated = d_id existing
    ∧ owner_id updated = owner_id existing
    ∧ created_at updated = created_at existing
    ∧ audit_trail updated
      = (audit_trail existing
         ++ [{| action := "update"; user_id := user_id_of (Own Auth.citizen1);
                timestamp := time calm_state; changes := Some retitle |}])%list
    ∧ (truthy (title retitle) = false → d_title updated = d_title existing)
    ∧ (truthy (description retitle) = false
       → d_description updated = d_description existing).
Proof.
  apply (update_keeps_identity (Own Auth.citizen1) "d1" retitle calm_state).
  vm_compute. reflexivity.
Defined.

(** X26: a create request is answered with 400 exactly when the title or
    the description is missing or empty, and then nothing at all happens:
    no identifier is drawn, the table is not called, nothing is broadcast. *)
Theorem create_rejects_exactly_incomplete (user : property Auth.user) (b : body)
    (s : state) :
  (status_of (fst (create user b s)) = Some 400%Z
   ↔ truthy (title b) = false ∨ truthy (description b) = false)
  ∧ (status_of (fst (create user b s)) = Some 400%Z → snd (create user b s) = s).
Proof.
  destruct (create_cases user b s)
    as [(Hr & Hmiss & Hs)
       |[(message & Hr & Ht & Hd & _)
        |(uid & t & d & created & _ & _ & _ & Ht & Hd & _ & _ & Hr & _)]];
    rewrite Hr; cbn.
  - split; [tauto | auto].
  - rewrite Ht, Hd. split; [split|]; [discriminate | intros [?|?]; discriminate
                                     | discriminate].
  - rewrite Ht, Hd. split; [split|]; [discriminate | intros [?|?]; discriminate
                                     | discriminate].
Qed.



Lemma handle_as_handler (r : request) :
  ∃ user,
    Auth.authenticate {| Auth.authorization := credentials r |} = Auth.Next user
    ∧ handle r
      = match r with
        | Post _ b => create user b
        | Put _ id b => update user id b
        | Delete _ id => remove user id
        end.
Proof.
  destruct r; unfold handle, behind_authenticate, Auth.authenticate; cbv zeta;
    eexists; split; reflexivity.
Qed.

Lemma prototype_may_not_change (k : string) (existing : row) :
  ¬ may_change (Inherited k) existing.
Proof. intros [(uid & _ & H)|H]; discriminate H. Qed.

(** X28: a token that names a member of [Object.prototype] passes the
    middleware but cannot write: whatever the request, the table is left
    as it was, nothing is broadcast, and the answer is an error. *)
Theorem prototype_token_cannot_write (r : request) (s : state) (k : string) :
  Auth.authenticate {| Auth.authorization := credentials r |} = Auth.Next (Inherited k) →
  ∃ code,
    status_of (fst (handle r s)) = Some code
    ∧ (code = 400 ∨ code = 403 ∨ code = 404 ∨ code = 500)%Z
    ∧ disasters (snd (handle r s)) = disasters s
    ∧ emitted (snd (handle r s)) = emitted s.
Proof.
  intros Hauth. destruct (handle_as_handler r) as (user & Hu & ->).
  rewrite Hauth in Hu. injection Hu as <-.
  destruct r as [h b|h id b|h id].
  - destruct (create_cases (Inherited k) b s)
      as [(Hr & _ & Hs)
         |[(message & Hr & _ & _ & Ht & He)
          |(uid & t & d & created & Hid & _)]].
    + exists 400%Z. rewrite Hr, Hs. cbn. repeat split; auto.
    + exists 500%Z. rewrite Hr. cbn. repeat split; auto.
    + discriminate Hid.
  - destruct (update_cases (Inherited k) id b s)
      as [(code & message & Hr & Hcode & Ht & He)
         |(existing & updated & _ & Hmay & _)].
    + exists code. rewrite Hr. cbn. repeat split; auto; lia.
    + now apply prototype_may_not_change in Hmay.
  - destruct (remove_cases (Inherited k) id s)
      as [(code & message & Hr & Hcode & Ht & He)
         |(existing & _ & Hmay & _)].
    + exists code. rewrite Hr. cbn. repeat split; auto; lia.
    + now apply prototype_may_not_change in Hmay.
Qed.

Lemma prototype_token_cannot_write_witness :
  ∃ code,
    status_of (fst (handle (Delete (Some "Bearer constructor") "d1") calm_state))
      = Some code
    ∧ (code = 400 ∨ code = 403 ∨ code = 404 ∨ code = 500)%Z
    ∧ disasters (snd (handle (Delete (Some "Bearer constructor") "d1") calm_state))
      = disasters calm_state
    ∧ emitted (snd (handle (Delete (Some "Bearer constructor") "d1") calm_state))
      = emitted calm_state.
Proof.
  apply (prototype_token_cannot_write (Delete (Some "Bearer constructor") "d1")
           calm_state "constructor").
  vm_compute. reflexivity.
Defined.




(** X30: every request to the three endpoints is answered, and it either
    succeeds with exactly one [disaster_updated] broadcast, or fails
    leaving the table and the broadcasts as they were. *)
Theorem failure_is_atomic (r : request) (s : state) :
  ∃ resp,
    fst (handle r s) = Ret resp
    ∧ (((status resp = 200 ∨ status resp = 201)%Z
        ∧ ∃ bc, emitted (snd (handle r s)) = bc :: emitted s
                ∧ b_event bc = "disaster_updated")
       ∨ ((status resp = 400 ∨ status resp = 403 ∨ status resp = 404
           ∨ status resp = 500)%Z
          ∧ disasters (snd (handle r s)) = disasters s
          ∧ emitted (snd (handle r s)) = emitted s)).
Proof.
  destruct (handle_as_handler r) as (user & _ & ->).
  destruct r as [h b|h id b|h id].
  - destruct (create_cases user b s)
      as [(Hr & _ & Hs)
         |[(message & Hr & _ & _ & Ht & He)
          |(uid & t & d & created & _ & _ & _ & _ & _ & _ & _ & Hr & _ & He)]];
      eexists; (split; [exact Hr|]).
    + right. rewrite Hs. cbn. auto.
    + right. cbn. auto 6.
    + left. cbn. split; [auto|]. eexists. split; [exact He | reflexivity].
  - destruct (update_cases user id b s)
      as [(code & message & Hr & Hcode & Ht & He)
         |(existing & updated & _ & _ & _ & Hr & _ & He)];
      eexists; (split; [exact Hr|]).
    + right. cbn. repeat split; auto; lia.
    + left. cbn. split; [auto|]. eexists. split; [exact He | reflexivity].
  - destruct (remove_cases user id s)
      as [(code & message & Hr & Hcode & Ht & He)
         |(existing & _ & _ & Hr & _ & He)];
      eexists; (split; [exact Hr|]).
    + right. cbn. repeat split; auto; lia.
    + left. cbn. split; [auto|]. eexists. split; [exact He | reflexivity].
Qed.

End DisasterProps.
